(** * Digg Daily Player: episode resolution, cache and DOM annotation

    A shallow embedding of the Chrome extension's two scripts:
    - [chrome-extension/popup.js]: the episode resolver with its
      single-slot, 30-minute cache in [chrome.storage.local];
    - [chrome-extension/content.js]: the content script that marks the
      containers of official Digg Daily posts on the host page.

    Asynchronous functions are modelled as state-passing computations that
    either return a value or throw; a rejected promise is a throw at the
    [await]. *)

From Stdlib Require Import ZArith String Ascii List Bool Lia DecimalString.
From stdpp Require Import base option list.
Import ListNotations.

Local Open Scope string_scope.
Local Open Scope Z_scope.

(** ** JavaScript values shared by both scripts *)

Module Js.

(** Every error the scripts raise is a plain [Error] carrying a message;
    a rejection of a browser API is an error value as well. *)
Inductive JsError : Type :=
| Error (message : string).

Definition message (e : JsError) : string :=
  match e with Error m => m end.

(** The completion of a JavaScript computation. *)
Inductive outcome (A : Type) : Type :=
| Returned (a : A)
| Thrown (e : JsError).
Arguments Returned {A} a.
Arguments Thrown {A} e.

(** [s.startsWith(p)] *)
Fixpoint startsWith (p s : string) : bool :=
  match p, s with
  | EmptyString, _ => true
  | String _ _, EmptyString => false
  | String a p', String b s' => if Ascii.eqb a b then startsWith p' s' else false
  end.

(** [hay.includes(needle)]: the needle occurs at some position. *)
Fixpoint includes (needle hay : string) : bool :=
  startsWith needle hay ||
  match hay with
  | EmptyString => false
  | String _ hay' => includes needle hay'
  end.

(** The relation [includes] decides. *)
Definition Substring (needle hay : string) : Prop :=
  exists pre suf, hay = (pre ++ needle ++ suf)%string.

(** [s.split(sep)[0]] for a one-character separator: the text before the
    first separator, the whole string when there is none. *)
Fixpoint split_head (sep : ascii) (s : string) : string :=
  match s with
  | EmptyString => EmptyString
  | String c s' => if Ascii.eqb c sep then EmptyString else String c (split_head sep s')
  end.

(** An integer in a template literal (all digits; the exponent form that
    JavaScript uses from 1e21 on is outside this model). *)
Definition number_to_string (n : Z) : string :=
  NilZero.string_of_int (Z.to_int n).

(** [Array.prototype.sort(cmp)]: a stable sort; a comparator result of
    [NaN] (here [None]) counts as [+0].  The element that ends first is
    decided by insertion from the right, which is what any stable sort
    yields for a consistent comparator.  Where results are [NaN] the order
    is the engine's own; the model keeps neighbours whose comparison is
    [NaN] in place. *)
Definition sort_order (v : option Z) : Z :=
  match v with Some z => z | None => 0 end.

Fixpoint sort_insert {A} (cmp : A -> A -> option Z) (x : A) (l : list A) : list A :=
  match l with
  | [] => [x]
  | y :: l' =>
      if sort_order (cmp x y) <=? 0 then x :: y :: l'
      else y :: sort_insert cmp x l'
  end.

Definition sort {A} (cmp : A -> A -> option Z) (l : list A) : list A :=
  fold_right (sort_insert cmp) [] l.

(** The comparator [(a, b) => key(b) - key(a)]: decreasing key, [NaN] as
    soon as a key is. *)
Definition descending {A} (key : A -> option Z) (a b : A) : option Z :=
  match key b, key a with
  | Some tb, Some ta => Some (tb - ta)
  | _, _ => None
  end.

(** Computations over a state [S] that return or throw: the shape of a
    function body that reads and writes its surroundings. *)
Definition M (S A : Type) : Type := S -> outcome A * S.

Definition ret {S A} (a : A) : M S A := fun st => (Returned a, st).
Definition throw {S A} (e : JsError) : M S A := fun st => (Thrown e, st).
Definition bind {S A B} (m : M S A) (k : A -> M S B) : M S B :=
  fun st =>
    match m st with
    | (Returned a, st') => k a st'
    | (Thrown e, st') => (Thrown e, st')
    end.
Definition try_catch {S A} (m : M S A) (handler : JsError -> M S A) : M S A :=
  fun st =>
    match m st with
    | (Returned a, st') => (Returned a, st')
    | (Thrown e, st') => handler e st'
    end.
Definition lift {S A} (o : outcome A) : M S A := fun st => (o, st).

(** [list.forEach(body)] *)
Fixpoint forEach {S A} (l : list A) (body : A -> M S unit) : M S unit :=
  match l with
  | [] => ret tt
  | x :: l' => bind (body x) (fun _ => forEach l' body)
  end.

Module Notations.
Notation "'let_await' x ':=' m 'in' k" := (bind m (fun x => k))
  (at level 10, x name, m at level 200, k at level 200).
Notation "'do_await' m 'in' k" := (bind m (fun _ => k))
  (at level 10, m at level 200, k at level 200).
End Notations.

End Js.
Import Js Js.Notations.

(** ** popup.js *)

Module Popup.

Definition API_URL := "https://sxuww3gfy4.execute-api.us-east-2.amazonaws.com/prod/episodes".
Definition CDN_BASE := "https://d3tha58ojcqcpf.cloudfront.net/prod/episodes".
Definition DIGGDAILY_URL := "https://digg.com/diggdaily".
Definition CACHE_KEY := "diggDailyCache".
Definition CACHE_DURATION_MS : Z := 30 * 60 * 1000.

(** One element of [data.episodes] in the API's JSON document, as the API
    sends it: every field present, strings and a number.  A record that
    lacks a field is outside this model. *)
Record RawEpisode : Type := {
  episode_id : string;
  file_name : string;
  published_date : string;
  published_state : string;
  episode_number : Z
}.

(** The object built by [fetchLatestEpisode] and kept in the cache. *)
Record Episode : Type := {
  title : string;
  date : string;
  episodeNumber : Z;
  diggUrl : string;
  audioUrl : string;
  fetchedAt : Z
}.

(** The part of the runtime's [Date] the script relies on: the time value
    of [new Date(s)] in milliseconds ([None] for an invalid date, whose
    time value is [NaN]), and the en-US month name, day of month and year
    of that date in the local time zone, as they print. *)
Class DateApi : Type := {
  Date_parse : string -> option Z;
  Date_monthLong : string -> string;
  Date_getDate : string -> string;
  Date_getFullYear : string -> string
}.

(** The body of the HTTP response: [response.json()] then [data.episodes]
    (absent when the document has no such field).  The document is an
    object and the field, when present, an array; other documents are
    outside this model. *)
Record Payload : Type := { episodes : option (list RawEpisode) }.

Record Response : Type := {
  ok : bool;
  status : Z;
  json : outcome Payload
}.

(** What the popup's outside world does during one resolution: whether
    each [chrome.storage.local] call rejects, how [fetch] completes, and
    what [Date.now()] reads at the cache check and when the record is
    built. *)
Record Env : Type := {
  get_fault : option JsError;
  set_fault : option JsError;
  remove_fault : option JsError;
  fetch_result : outcome Response;
  now_read : Z;
  now_build : Z
}.

(** The state the popup acts on: the value stored under [CACHE_KEY] and
    the number of [fetch] calls issued so far. *)
Record Store : Type := {
  slot : option Episode;
  fetch_calls : nat
}.

(** The popup's computations run over the store. *)
Definition M (A : Type) : Type := Js.M Store A.

Section Resolver.
Context `{DateApi}.
Variable env : Env.

(** *** chrome.storage.local and fetch *)

Definition storage_get : M (option Episode) :=
  fun st =>
    match get_fault env with
    | Some e => (Thrown e, st)
    | None => (Returned (slot st), st)
    end.

Definition storage_set (episode : Episode) : M unit :=
  fun st =>
    match set_fault env with
    | Some e => (Thrown e, st)
    | None => (Returned tt, {| slot := Some episode; fetch_calls := fetch_calls st |})
    end.

Definition storage_remove : M unit :=
  fun st =>
    match remove_fault env with
    | Some e => (Thrown e, st)
    | None => (Returned tt, {| slot := None; fetch_calls := fetch_calls st |})
    end.

Definition fetch : M Response :=
  fun st =>
    (fetch_result env, {| slot := slot st; fetch_calls := S (fetch_calls st) |}).

(** *** createTitle *)

Definition createTitle (publishedDate : string) (episodeNumber : Z) : string :=
  "Digg Daily #" ++ number_to_string episodeNumber ++ " - "
    ++ Date_monthLong publishedDate ++ " " ++ Date_getDate publishedDate
    ++ ", " ++ Date_getFullYear publishedDate.

(** *** getCachedEpisode, cacheEpisode, clearCache *)

Definition getCachedEpisode : M (option Episode) :=
  try_catch
    (let_await cached := storage_get in
     match cached with
     | Some c =>
         if now_read env - fetchedAt c <? CACHE_DURATION_MS
         then ret (Some c)
         else ret None
     | None => ret None
     end)
    (fun _ => ret None).

Definition cacheEpisode (episode : Episode) : M unit :=
  try_catch (storage_set episode) (fun _ => ret tt).

Definition clearCache : M unit :=
  try_catch storage_remove (fun _ => ret tt).

(** *** fetchLatestEpisode, after the cache check *)

(** Lines 58-60: the collection must be present and non-empty. *)
Definition requireEpisodes (data : Payload) : outcome (list RawEpisode) :=
  match episodes data with
  | None => Thrown (Error "No episodes available")
  | Some [] => Thrown (Error "No episodes available")
  | Some eps => Returned eps
  end.

Definition isPublished (ep : RawEpisode) : bool :=
  String.eqb (published_state ep) "PUBLISHED".

(** [new Date(b.published_date) - new Date(a.published_date)] *)
Definition byDateDescending (a b : RawEpisode) : option Z :=
  match Date_parse (published_date b), Date_parse (published_date a) with
  | Some tb, Some ta => Some (tb - ta)
  | _, _ => None
  end.

(** Lines 63-72: filter, reject the empty result, sort, take the first.
    Reading a field of [publishedEpisodes[0]] when there is no such element
    would be a type error. *)
Definition selectLatest (eps : list RawEpisode) : outcome RawEpisode :=
  let publishedEpisodes := List.filter isPublished eps in
  match publishedEpisodes with
  | [] => Thrown (Error "No published episodes found")
  | _ :: _ =>
      match sort byDateDescending publishedEpisodes with
      | latest :: _ => Returned latest
      | [] => Thrown (Error "Cannot read properties of undefined")
      end
  end.

(** Lines 74-83: the record for the chosen raw episode. *)
Definition buildEpisode (latest : RawEpisode) (now : Z) : Episode :=
  {| title := createTitle (published_date latest) (episode_number latest);
     date := split_head "T" (published_date latest);
     episodeNumber := episode_number latest;
     diggUrl := DIGGDAILY_URL;
     audioUrl := CDN_BASE ++ "/" ++ episode_id latest ++ "/" ++ file_name latest;
     fetchedAt := now |}.

(** Lines 62-83: from the raw collection to the record. *)
Definition select (eps : list RawEpisode) (now : Z) : outcome Episode :=
  match selectLatest eps with
  | Returned latest => Returned (buildEpisode latest now)
  | Thrown e => Thrown e
  end.

(** Lines 56-83: from the parsed document to the record. *)
Definition selectFromPayload (data : Payload) (now : Z) : outcome Episode :=
  match requireEpisodes data with
  | Returned eps => select eps now
  | Thrown e => Thrown e
  end.

Definition fetchLatestEpisode : M Episode :=
  let_await cached := getCachedEpisode in
  match cached with
  | Some c => ret c
  | None =>
      let_await response := fetch in
      if negb (ok response)
      then throw (Error ("API request failed: " ++ number_to_string (status response)))
      else
        let_await data := lift (json response) in
        let_await episode := lift (selectFromPayload data (now_build env)) in
        do_await cacheEpisode episode in
        ret episode
  end.

(** *** The popup's three views, loadEpisode and the refresh button *)

Inductive View : Type :=
| Loading
| Player (episode : Episode)
| ErrorView (message : string).

Definition loadEpisode : Store -> View * Store :=
  fun st =>
    match fetchLatestEpisode st with
    | (Returned episode, st') => (Player episode, st')
    | (Thrown err, st') => (ErrorView (message err), st')
    end.

(** The click handler of [refresh-btn]: the loading view is shown, then
    [clearCache()] and [loadEpisode()] are awaited in turn; were
    [clearCache] to throw, the handler would stop on the loading view. *)
Definition refresh : Store -> View * Store :=
  fun st =>
    match clearCache st with
    | (Returned _, st') => loadEpisode st'
    | (Thrown _, st') => (Loading, st')
    end.

End Resolver.

End Popup.

(** ** content.js *)

Module Content.

(** *** The host page's document *)

(** An element with what the script reads and writes: tag name, [id] and
    [href] attributes, class list and child elements. *)
#[warnings="-register-all"] Inductive Element : Type :=
| Elem (localName : string) (id : option string) (href : option string)
       (classList : list string) (children : list Element).

Definition localName (e : Element) : string :=
  match e with Elem t _ _ _ _ => t end.
Definition id (e : Element) : option string :=
  match e with Elem _ i _ _ _ => i end.
Definition href (e : Element) : option string :=
  match e with Elem _ _ h _ _ => h end.
Definition classList (e : Element) : list string :=
  match e with Elem _ _ _ cl _ => cl end.
Definition children (e : Element) : list Element :=
  match e with Elem _ _ _ _ ch => ch end.

(** A node is referred to by the child indices leading to it from the
    document element. *)
Definition path : Type := list nat.

Fixpoint get (p : path) (e : Element) : option Element :=
  match p with
  | [] => Some e
  | i :: p' =>
      match children e !! i with
      | Some c => get p' c
      | None => None
      end
  end.

(** In-place update of the node at [p]. *)
Fixpoint alter_at (f : Element -> Element) (p : path) (e : Element) : Element :=
  match p with
  | [] => f e
  | i :: p' =>
      match e with
      | Elem t i' h cl ch => Elem t i' h cl (alter (alter_at f p') i ch)
      end
  end.

(** All nodes in document order. *)
Fixpoint paths (e : Element) : list path :=
  match e with
  | Elem _ _ _ _ ch =>
      [] :: (fix under (i : nat) (cs : list Element) {struct cs} : list path :=
               match cs with
               | [] => []
               | c :: cs' => (List.map (cons i) (paths c) ++ under (S i) cs')%list
               end) 0%nat ch
  end.

(** The node itself, then its parent, up to the document element. *)
Fixpoint prefixes (p : path) : list path :=
  match p with
  | [] => [[]]
  | i :: p' => [] :: List.map (cons i) (prefixes p')
  end.

Definition ancestors_or_self (p : path) : list path := rev (prefixes p).

Definition test_at (d : Element) (f : Element -> bool) (p : path) : bool :=
  match get p d with
  | Some e => f e
  | None => false
  end.

(** The selector [a[href*="/diggdaily/"]]. *)
Definition isCommunityLink (e : Element) : bool :=
  String.eqb (localName e) "a" &&
  match href e with
  | Some h => includes "/diggdaily/" h
  | None => false
  end.

Definition hasTag (tag : string) (e : Element) : bool := String.eqb (localName e) tag.

Definition hasClass (cls : string) (e : Element) : bool :=
  existsb (String.eqb cls) (classList e).

Definition hasId (name : string) (e : Element) : bool :=
  match id e with
  | Some i => String.eqb i name
  | None => false
  end.

(** [classList.add]: the token is appended unless present. *)
Definition addClass (cls : string) (e : Element) : Element :=
  match e with
  | Elem t i h cl ch =>
      Elem t i h (if existsb (String.eqb cls) cl then cl else (cl ++ [cls])%list) ch
  end.

Definition appendTo (child : Element) (e : Element) : Element :=
  match e with
  | Elem t i h cl ch => Elem t i h cl (ch ++ [child])%list
  end.

Fixpoint index_where {A} (f : A -> bool) (l : list A) : option nat :=
  match l with
  | [] => None
  | x :: l' => if f x then Some 0%nat else option_map S (index_where f l')
  end.

(** *** The page the script runs in *)

Record Page : Type := {
  hostname : string;
  loading : bool;                (* document.readyState === 'loading' *)
  document : Element;
  readyListeners : nat;          (* DOMContentLoaded listeners added *)
  observers : list path          (* targets of installed observers *)
}.

Definition with_document (pg : Page) (d : Element) : Page :=
  {| hostname := hostname pg; loading := loading pg; document := d;
     readyListeners := readyListeners pg; observers := observers pg |}.

Definition TypeError : JsError := Error "Cannot read properties of null".

(** A method call on a possibly null reference: a null receiver, or one
    that is no node of the document, throws. *)
Definition on_element {A} (recv : option path) (k : path -> Element -> M Page A) : M Page A :=
  fun pg =>
    match recv with
    | Some p =>
        match get p (document pg) with
        | Some e => k p e pg
        | None => (Thrown TypeError, pg)
        end
    | None => (Thrown TypeError, pg)
    end.

(** [document.querySelectorAll('a[href*="/diggdaily/"]')]: a static list. *)
Definition querySelectorAll_communityLinks : M Page (list path) :=
  fun pg =>
    (Returned (List.filter (test_at (document pg) isCommunityLink) (paths (document pg))), pg).

(** [el.getAttribute('href')] *)
Definition getAttribute_href (recv : option path) : M Page (option string) :=
  on_element recv (fun _ e => ret (href e)).

(** [el.closest(tag)] *)
Definition closest (recv : option path) (tag : string) : M Page (option path) :=
  on_element recv (fun p _ pg =>
    (Returned (List.find (test_at (document pg) (hasTag tag)) (ancestors_or_self p)), pg)).

(** [el.classList.contains(cls)] *)
Definition classList_contains (recv : option path) (cls : string) : M Page bool :=
  on_element recv (fun _ e => ret (hasClass cls e)).

(** [el.classList.add(cls)] *)
Definition classList_add (recv : option path) (cls : string) : M Page unit :=
  on_element recv (fun p _ pg =>
    (Returned tt, with_document pg (alter_at (addClass cls) p (document pg)))).

(** [document.getElementById(name)] *)
Definition getElementById (name : string) : M Page (option path) :=
  fun pg =>
    (Returned (List.find (test_at (document pg) (hasId name)) (paths (document pg))), pg).

(** [document.body]: the first body or frameset child of the html
    element, null when there is none. *)
Definition document_body : M Page (option path) :=
  fun pg =>
    (Returned
       (if String.eqb (localName (document pg)) "html"
        then option_map (fun i => [i])
               (index_where (fun c => hasTag "body" c || hasTag "frameset" c)
                  (children (document pg)))
        else None), pg).

(** [el.appendChild(child)] *)
Definition appendChild (recv : option path) (child : Element) : M Page unit :=
  on_element recv (fun p _ pg =>
    (Returned tt, with_document pg (alter_at (appendTo child) p (document pg)))).

(** [document.addEventListener('DOMContentLoaded', ...)] *)
Definition addReadyListener : M Page unit :=
  fun pg =>
    (Returned tt,
     {| hostname := hostname pg; loading := loading pg; document := document pg;
        readyListeners := S (readyListeners pg); observers := observers pg |}).

(** [new MutationObserver(...).observe(target, ...)] *)
Definition observe (target : option path) : M Page unit :=
  on_element target (fun p _ pg =>
    (Returned tt,
     {| hostname := hostname pg; loading := loading pg; document := document pg;
        readyListeners := readyListeners pg; observers := (observers pg ++ [p])%list |})).

(** *** The script *)

Definition OFFICIAL : string := "digg-daily-official".
Definition QUICK_PLAY : string := "digg-daily-quick-play".

(** The button with its icon and label. *)
Definition quickPlayButton : Element :=
  Elem "button" (Some QUICK_PLAY) None []
    [Elem "svg" None None [] [Elem "path" None None [] []];
     Elem "span" None None [] []].

Definition addQuickPlayButton : M Page unit :=
  let_await existing := getElementById QUICK_PLAY in
  match existing with
  | Some _ => ret tt
  | None =>
      let_await body := document_body in
      appendChild body quickPlayButton
  end.

(** The test on a link's address. *)
Definition isOfficial (href : string) : bool :=
  includes "/digg-daily-" href &&
  negb (includes "homemade" href) &&
  negb (includes "recap" href).

(** The body of the [forEach] over the links. *)
Definition highlightLink (link : path) : M Page unit :=
  let_await attr := getAttribute_href (Some link) in
  let href := match attr with Some h => h | None => "" end in
  if isOfficial href then
    let_await article := closest (Some link) "article" in
    let_await container :=
      match article with
      | Some _ => ret article
      | None => closest (Some link) "div"
      end in
    match container with
    | None => ret tt
    | Some _ =>
        let_await present := classList_contains container OFFICIAL in
        if negb present then classList_add container OFFICIAL else ret tt
    end
  else ret tt.

Definition highlightOfficialPosts : M Page unit :=
  let_await links := querySelectorAll_communityLinks in
  forEach links highlightLink.

(** What the script does when it is loaded into a page. *)
Definition contentScript : M Page unit :=
  fun pg =>
    if includes "digg.com" (hostname pg) then
      (do_await
         (if loading pg then addReadyListener
          else do_await addQuickPlayButton in highlightOfficialPosts) in
       let_await body := document_body in
       observe body) pg
    else (Returned tt, pg).

(** The two callbacks the script leaves behind. *)
Definition onDOMContentLoaded : M Page unit :=
  do_await addQuickPlayButton in highlightOfficialPosts.

Definition onMutation : M Page unit := highlightOfficialPosts.

(** The nodes carrying the marker, in document order. *)
Definition marked (d : Element) : list path :=
  List.filter (test_at d (hasClass OFFICIAL)) (paths d).

End Content.

(** ** The marking pass as a function of the document *)

Module Marking.
Import Content.

(** The attributes no class change touches. *)
Definition attrs (e : Element) : string * option string * option string :=
  (localName e, id e, href e).

(** Two documents that differ at most in class lists. *)
Definition similar (d d' : Element) : Prop :=
  paths d = paths d' /\ forall q, attrs <$> get q d = attrs <$> get q d'.

(** [link.getAttribute('href') || ''] *)
Definition href_or_empty (d : Element) (link : path) : string :=
  match get link d with
  | Some e => match href e with Some h => h | None => "" end
  | None => ""
  end.

Definition closest_path (d : Element) (link : path) (tag : string) : option path :=
  List.find (test_at d (hasTag tag)) (ancestors_or_self link).

(** [link.closest('article') || link.closest('div')] *)
Definition container_of (d : Element) (link : path) : option path :=
  match closest_path d link "article" with
  | Some c => Some c
  | None => closest_path d link "div"
  end.

(** The node the pass marks on behalf of a link, if any. *)
Definition target (d : Element) (link : path) : option path :=
  if isOfficial (href_or_empty d link) then container_of d link else None.

Definition is_marked (d : Element) (q : path) : bool :=
  test_at d (hasClass OFFICIAL) q.

Definition mark (d : Element) (c : path) : Element :=
  alter_at (addClass OFFICIAL) c d.

Definition highlight_one (d : Element) (link : path) : Element :=
  match target d link with
  | Some c => if is_marked d c then d else mark d c
  | None => d
  end.

Definition communityLinks (d : Element) : list path :=
  List.filter (test_at d isCommunityLink) (paths d).

Definition highlight_all (d : Element) : Element :=
  fold_left highlight_one (communityLinks d) d.

(** The paths to the children of a node, the first child having index [i]. *)
Fixpoint child_paths (i : nat) (cs : list Element) : list path :=
  match cs with
  | [] => []
  | c :: cs' => (List.map (cons i) (paths c) ++ child_paths (S i) cs')%list
  end.

End Marking.

(** ** Test doubles used by the examples *)

Module Sample.
Import Popup.

(** A runtime in UTC that knows the two dates of the examples. *)
#[global] Instance utcDates : DateApi := {|
  Date_parse s :=
    if String.eqb s "2024-03-01" then Some 1709251200000
    else if String.eqb s "2024-03-02" then Some 1709337600000
    else None;
  Date_monthLong s := "March";
  Date_getDate s := if String.eqb s "2024-03-01" then "1" else "2";
  Date_getFullYear s := "2024"
|}.

Definition published40 : RawEpisode :=
  {| episode_id := "7"; file_name := "ep40.mp3"; published_date := "2024-03-01";
     published_state := "PUBLISHED"; episode_number := 40 |}.

Definition draft41 : RawEpisode :=
  {| episode_id := "8"; file_name := "ep41.mp3"; published_date := "2024-03-02";
     published_state := "DRAFT"; episode_number := 41 |}.

Definition feed : list RawEpisode := [published40; draft41].

Definition minute : Z := 60 * 1000.

(** A record cached at time 0. *)
Definition cachedAtZero : Episode := buildEpisode published40 0.

Definition goodResponse : Response :=
  {| ok := true; status := 200; json := Returned {| episodes := Some feed |} |}.

Definition emptyResponse : Response :=
  {| ok := true; status := 200; json := Returned {| episodes := Some [] |} |}.

Definition storageDown : JsError := Error "storage unavailable".

(** Storage works, the API answers with [feed]. *)
Definition calm (now : Z) : Env :=
  {| get_fault := None; set_fault := None; remove_fault := None;
     fetch_result := Returned goodResponse; now_read := now; now_build := now |}.

(** The read rejects. *)
Definition readDown (now : Z) : Env :=
  {| get_fault := Some storageDown; set_fault := None; remove_fault := None;
     fetch_result := Returned goodResponse; now_read := now; now_build := now |}.

(** The write rejects. *)
Definition writeDown (now : Z) : Env :=
  {| get_fault := None; set_fault := Some storageDown; remove_fault := None;
     fetch_result := Returned goodResponse; now_read := now; now_build := now |}.

(** The remove rejects. *)
Definition removeDown (now : Z) : Env :=
  {| get_fault := None; set_fault := None; remove_fault := Some storageDown;
     fetch_result := Returned goodResponse; now_read := now; now_build := now |}.

Definition warm : Store := {| slot := Some cachedAtZero; fetch_calls := 0 |}.
Definition cold : Store := {| slot := None; fetch_calls := 0 |}.

(** A digg.com page: one official post inside an article inside a div, one
    homemade recap inside a div, and one official link directly under a
    paragraph of the body. *)
Definition officialLink : Content.Element :=
  Content.Elem "a" None (Some "/diggdaily/digg-daily-123") [] [].

Definition homemadeLink : Content.Element :=
  Content.Elem "a" None (Some "/diggdaily/digg-daily-homemade-5") [] [].

Definition feedDocument : Content.Element :=
  Content.Elem "html" None None []
    [Content.Elem "head" None None [] [];
     Content.Elem "body" None None []
       [Content.Elem "div" None None ["post"]
          [Content.Elem "article" None None [] [officialLink]];
        Content.Elem "div" None None ["post"] [homemadeLink];
        Content.Elem "p" None None [] [officialLink]]].

Definition diggPage : Content.Page :=
  {| Content.hostname := "digg.com"; Content.loading := false;
     Content.document := feedDocument; Content.readyListeners := 0;
     Content.observers := [] |}.

Definition otherPage : Content.Page :=
  {| Content.hostname := "example.org"; Content.loading := false;
     Content.document := feedDocument; Content.readyListeners := 0;
     Content.observers := [] |}.

(** A div holding an official post and a homemade recap side by side. *)
Definition sharedDocument : Content.Element :=
  Content.Elem "html" None None []
    [Content.Elem "body" None None []
       [Content.Elem "div" None None [] [officialLink; homemadeLink]]].

End Sample.

(** ** What the claims speak of *)

Module Terms.
Import Popup.

(** The spec's error classes, told apart in the code by their message. *)
Definition NoPublishedEpisodeError : JsError := Error "No published episodes found".
Definition UpstreamError : JsError := Error "No episodes available".

(** A stored entry is valid while its age is below the window. *)
Definition fresh (now : Z) (c : Episode) : Prop :=
  now - fetchedAt c < CACHE_DURATION_MS.

(** No valid cache entry exists: nothing is stored, or the stored entry's
    age has reached the window. *)
Definition no_valid_entry (now : Z) (st : Store) : Prop :=
  slot st = None \/ exists c, slot st = Some c /\ now - fetchedAt c >= CACHE_DURATION_MS.

(** The [fetch] calls issued by [fetchLatestEpisode], that is by
    [resolve(false)]. *)
Definition network_calls `{DateApi} (env : Env) (st : Store) : nat :=
  (fetch_calls (snd (fetchLatestEpisode env st)) - fetch_calls st)%nat.

(** The [fetch] calls issued by the refresh handler, [resolve(true)]. *)
Definition refresh_calls `{DateApi} (env : Env) (st : Store) : nat :=
  (fetch_calls (snd (refresh env st)) - fetch_calls st)%nat.

(** The network call succeeds with [episode]: the response is ok, its body
    parses, and the selection yields [episode]. *)
Definition fetch_succeeds `{DateApi} (env : Env) (episode : Episode) : Prop :=
  exists response data,
    fetch_result env = Returned response /\ ok response = true /\
    json response = Returned data /\
    selectFromPayload data (now_build env) = Returned episode.

(** The same world with a working storage read, and the same store with
    nothing stored: a cold start. *)
Definition with_working_read (env : Env) : Env :=
  {| get_fault := None; set_fault := set_fault env; remove_fault := remove_fault env;
     fetch_result := fetch_result env; now_read := now_read env;
     now_build := now_build env |}.

Definition emptied (st : Store) : Store :=
  {| slot := None; fetch_calls := fetch_calls st |}.

(** The time value of a raw episode's publication date. *)
Definition timestamp `{DateApi} (r : RawEpisode) : option Z :=
  Date_parse (published_date r).

(** Two outcomes of the selection agree on everything but [fetchedAt]. *)
Definition same_but_fetchedAt (a b : outcome Episode) : Prop :=
  match a, b with
  | Returned x, Returned y =>
      title x = title y /\ date x = date y /\ episodeNumber x = episodeNumber y /\
      diggUrl x = diggUrl y /\ audioUrl x = audioUrl y
  | Thrown e, Thrown e' => e = e'
  | _, _ => False
  end.

End Terms.

(** ** popup.js: what the popup shows *)

Module PopupView.
Import Popup.

(** [new Date(s).toLocaleDateString('en-US', { weekday: 'long', year:
    'numeric', month: 'long', day: 'numeric' })], as the runtime prints it
    (an invalid date prints as such; nothing is thrown). *)
Class LongDate : Type := {
  Date_longDate : string -> string
}.

(** The elements of popup.html the script touches: whether each of the
    three panels carries the class [hidden], and the texts and addresses
    written into the player and the error panel. *)
Record Dom : Type := {
  loading_hidden : bool;
  player_hidden : bool;
  error_hidden : bool;
  episode_title : string;
  episode_date : string;
  audio_src : string;
  digg_link : string;
  download_link : string;
  error_message : string
}.

Section View.
Context {D : DateApi} {L : LongDate}.

Definition formatDateFromISO (isoDate : string) : string :=
  Date_longDate isoDate.

Definition formatDate (dateStr : string) : string :=
  Date_longDate (dateStr ++ "T12:00:00").

Definition showPlayer (episode : Episode) (dom : Dom) : Dom :=
  {| loading_hidden := true;
     error_hidden := true;
     player_hidden := false;
     episode_title := title episode;
     episode_date := formatDate (date episode);
     audio_src := audioUrl episode;
     digg_link := diggUrl episode;
     download_link := audioUrl episode;
     error_message := error_message dom |}.

Definition showError (message : string) (dom : Dom) : Dom :=
  {| loading_hidden := true;
     player_hidden := true;
     error_hidden := false;
     episode_title := episode_title dom;
     episode_date := episode_date dom;
     audio_src := audio_src dom;
     digg_link := digg_link dom;
     download_link := download_link dom;
     error_message := message |}.

(** The first three statements of the refresh handler. *)
Definition showLoading (dom : Dom) : Dom :=
  {| player_hidden := true;
     error_hidden := true;
     loading_hidden := false;
     episode_title := episode_title dom;
     episode_date := episode_date dom;
     audio_src := audio_src dom;
     digg_link := digg_link dom;
     download_link := download_link dom;
     error_message := error_message dom |}.

(** [loadEpisode], with what it writes into the page. *)
Definition loadEpisode (env : Env) (s : Store * Dom) : Store * Dom :=
  match fetchLatestEpisode env (fst s) with
  | (Returned episode, st') => (st', showPlayer episode (snd s))
  | (Thrown err, st') => (st', showError (message err) (snd s))
  end.

(** The click handler of [refresh-btn], with what it writes into the
    page. *)
Definition onRefreshClick (env : Env) (s : Store * Dom) : Store * Dom :=
  match clearCache env (fst s) with
  | (Returned _, st') => loadEpisode env (st', showLoading (snd s))
  | (Thrown _, st') => (st', showLoading (snd s))
  end.

(** [init]: after the handler is attached, the first load. *)
Definition init (env : Env) (s : Store * Dom) : Store * Dom :=
  loadEpisode env s.

(** One popup session: it opens, then the user clicks refresh once for
    each further element of [envs]; each action meets its own outside
    world. *)
Fixpoint clicks (envs : list Env) (s : Store * Dom) : Store * Dom :=
  match envs with
  | [] => s
  | env :: envs' => clicks envs' (onRefreshClick env s)
  end.

Definition session (first : Env) (envs : list Env) (s : Store * Dom) : Store * Dom :=
  clicks envs (init first s).

End View.

(** The panels not hidden. *)
Inductive Panel : Type := LoadingPanel | PlayerPanel | ErrorPanel.

Definition visible (dom : Dom) : list Panel :=
  ((if loading_hidden dom then [] else [LoadingPanel]) ++
   (if player_hidden dom then [] else [PlayerPanel]) ++
   (if error_hidden dom then [] else [ErrorPanel]))%list.

End PopupView.

(** ** background.js *)

Module Background.

Definition CHECK_INTERVAL_MINUTES : Z := 60.

(** The worker's surroundings: the alarms registered with [chrome.alarms]
    (name and period in minutes) and the responses sent so far. *)
Record Worker : Type := {
  alarms : list (string * Z);
  responses : list string
}.

(** [chrome.alarms.create(name, { periodInMinutes })]: an alarm of the same
    name is replaced. *)
Definition alarms_create (name : string) (period : Z) (w : Worker) : Worker :=
  {| alarms := (name, period)
               :: List.filter (fun a => negb (String.eqb (fst a) name)) (alarms w);
     responses := responses w |}.

Definition onInstalled (reason : string) (w : Worker) : Worker :=
  alarms_create "checkForNewEpisode" CHECK_INTERVAL_MINUTES w.

(** The alarm handler only logs. *)
Definition onAlarm (name : string) (w : Worker) : Worker :=
  if String.eqb name "checkForNewEpisode" then w else w.

(** The message handler: the response sent, if any, and the value handed
    back to keep the channel open. *)
Definition onMessage (type : string) (w : Worker) : Worker * bool :=
  (if String.eqb type "GET_LATEST_EPISODE"
   then {| alarms := alarms w; responses := (responses w ++ ["use_popup"])%list |}
   else w,
   true).

Inductive Event : Type :=
| Installed (reason : string)
| AlarmFired (name : string)
| MessageReceived (type : string).

Definition handle (w : Worker) (ev : Event) : Worker :=
  match ev with
  | Installed reason => onInstalled reason w
  | AlarmFired name => onAlarm name w
  | MessageReceived type => fst (onMessage type w)
  end.

Definition fresh_worker : Worker := {| alarms := []; responses := [] |}.

Definition run (events : list Event) : Worker := fold_left handle events fresh_worker.

Definition isInstalled (ev : Event) : bool :=
  match ev with Installed _ => true | _ => false end.

Definition isEpisodeRequest (ev : Event) : bool :=
  match ev with
  | MessageReceived type => String.eqb type "GET_LATEST_EPISODE"
  | _ => false
  end.

End Background.

(** ** Further terms *)

Module MoreTerms.
Import Popup Content Marking.

(** The same outside world at another reading of the clock. *)
Definition at_time (env : Env) (now : Z) : Env :=
  {| get_fault := get_fault env; set_fault := set_fault env;
     remove_fault := remove_fault env; fetch_result := fetch_result env;
     now_read := now; now_build := now_build env |}.

(** Every storage call of the world succeeds. *)
Definition storage_works (env : Env) : Prop :=
  get_fault env = None /\ set_fault env = None /\ remove_fault env = None.

(** The document holds the quick-play button. *)
Definition has_quick_play (d : Element) : bool :=
  match List.find (test_at d (hasId QUICK_PLAY)) (paths d) with
  | Some _ => true
  | None => false
  end.

(** The body element as [document.body] finds it. *)
Definition body_of (d : Element) : option path :=
  if String.eqb (localName d) "html"
  then option_map (fun i => [i])
         (index_where (fun c => hasTag "body" c || hasTag "frameset" c) (children d))
  else None.

(** [q] lies strictly between [c] and [link] on the way up. *)
Definition strictly_between (c q link : path) : Prop :=
  q `prefix_of` link /\ c `prefix_of` q /\ c <> q.

(** A node before and after: same attributes, and the same classes or the
    same classes followed by the marker, which it then did not carry. *)
Definition marker_added_at_most (e e' : Element) : Prop :=
  attrs e' = attrs e /\
  (classList e' = classList e \/
   (hasClass OFFICIAL e = false /\ classList e' = (classList e ++ [OFFICIAL])%list)).

(** Every node of [d] is still in its place in [d'], with its attributes
    and classes. *)
Definition kept (d d' : Element) : Prop :=
  forall q e, get q d = Some e ->
    exists e', get q d' = Some e' /\ attrs e' = attrs e /\ classList e' = classList e.

(** The document once [addQuickPlayButton] has returned. *)
Definition with_button (d : Element) : Element :=
  if has_quick_play d then d
  else match body_of d with
       | Some b => alter_at (appendTo quickPlayButton) b d
       | None => d
       end.

(** [s.endsWith(suffix)] *)
Fixpoint endsWith (suffix s : string) : bool :=
  String.eqb suffix s ||
  match s with
  | EmptyString => false
  | String _ s' => endsWith suffix s'
  end.

(** The claim's words, "the host matches the target site's domain
    (digg.com)": the host is digg.com or a name below it. *)
Definition host_matches_domain (host : string) : bool :=
  String.eqb host "digg.com" || endsWith ".digg.com" host.

End MoreTerms.

(** ** Further test doubles *)

Module MoreSample.

(** A runtime that prints a date as it was written. *)
Definition plainLongDate : PopupView.LongDate :=
  {| PopupView.Date_longDate := fun s => s |}.

(** popup.html as it opens: the loading panel alone is visible. *)
Definition openingDom : PopupView.Dom :=
  {| PopupView.loading_hidden := false;
     PopupView.player_hidden := true;
     PopupView.error_hidden := true;
     PopupView.episode_title := "";
     PopupView.episode_date := "";
     PopupView.audio_src := "";
     PopupView.digg_link := "";
     PopupView.download_link := "";
     PopupView.error_message := "" |}.

(** A digg.com page still loading, and one whose document has no body. *)
Definition loadingPage : Content.Page :=
  {| Content.hostname := "digg.com"; Content.loading := true;
     Content.document := Sample.feedDocument; Content.readyListeners := 0;
     Content.observers := [] |}.

Definition bodilessPage : Content.Page :=
  {| Content.hostname := "digg.com"; Content.loading := false;
     Content.document := Content.Elem "html" None None [] [Content.Elem "head" None None [] []];
     Content.readyListeners := 0; Content.observers := [] |}.

(** An official post in a div that lies inside an article: the div is
    nearer, the article is preferred. *)
Definition nestedDocument : Content.Element :=
  Content.Elem "html" None None []
    [Content.Elem "body" None None []
       [Content.Elem "article" None None []
          [Content.Elem "div" None None [] [Sample.officialLink]]]].

(** Two pages that are not on digg.com but whose host names contain that
    text. *)
Definition lookalikePage : Content.Page :=
  {| Content.hostname := "notdigg.com"; Content.loading := false;
     Content.document := Sample.feedDocument; Content.readyListeners := 0;
     Content.observers := [] |}.

Definition prefixedPage : Content.Page :=
  {| Content.hostname := "digg.com.evil.example"; Content.loading := false;
     Content.document := Sample.feedDocument; Content.readyListeners := 0;
     Content.observers := [] |}.

(** A newer published record, and a published record whose date does not
    parse. *)
Definition published41 : Popup.RawEpisode :=
  {| Popup.episode_id := "8"; Popup.file_name := "ep41.mp3";
     Popup.published_date := "2024-03-02";
     Popup.published_state := "PUBLISHED"; Popup.episode_number := 41 |}.

Definition undated : Popup.RawEpisode :=
  {| Popup.episode_id := "9"; Popup.file_name := "ep42.mp3";
     Popup.published_date := "not a date";
     Popup.published_state := "PUBLISHED"; Popup.episode_number := 42 |}.

Definition mixedFeed : list Popup.RawEpisode :=
  [Sample.published40; undated; published41].

End MoreSample.

Import Popup Terms Content Marking.
Import MoreTerms.

(** ** Strings and sorting *)

Lemma startsWith_append (p s : string) :
  startsWith p s = true <-> exists suf, s = (p ++ suf)%string.
Proof.
  revert s. induction p as [|a p IH]; intros s; simpl.
  - split; [intros _; exists s; reflexivity | reflexivity].
  - destruct s as [|b s].
    + split; [discriminate | intros [suf Hs]; discriminate].
    + destruct (Ascii.eqb_spec a b) as [->|Hne].
      * rewrite IH. split; intros [suf Hs]; exists suf; [now rewrite Hs | now inversion Hs].
      * split; [discriminate | intros [suf Hs]; simpl in Hs; congruence].
Qed.

Lemma includes_Substring (needle hay : string) :
  includes needle hay = true <-> Substring needle hay.
Proof.
  induction hay as [|c hay IH].
  - simpl. rewrite orb_false_r, startsWith_append. split.
    + intros [suf Hs]. exists EmptyString, suf. exact Hs.
    + intros [pre [suf Hs]]. destruct pre; [exists suf; exact Hs | discriminate].
  - cbn [includes]. rewrite orb_true_iff, startsWith_append, IH. split.
    + intros [[suf Hs] | [pre [suf Hs]]].
      * exists EmptyString, suf. exact Hs.
      * exists (String c pre), suf. simpl. now rewrite Hs.
    + intros [pre [suf Hs]]. destruct pre as [|d pre].
      * left. exists suf. exact Hs.
      * right. inversion Hs. exists pre, suf. reflexivity.
Qed.

Lemma includes_false_iff (needle hay : string) :
  includes needle hay = false <-> ~ Substring needle hay.
Proof.
  rewrite <- includes_Substring. destruct (includes needle hay); split; congruence.
Qed.

Section SortFacts.
Context {A : Type} (key : A -> option Z).

Lemma sort_insert_In (x y : A) (l : list A) :
  In y (sort_insert (descending key) x l) <-> y = x \/ In y l.
Proof.
  induction l as [|z l IH]; simpl.
  - intuition congruence.
  - destruct (sort_order (descending key x z) <=? 0); simpl; rewrite ?IH; intuition congruence.
Qed.

Lemma sort_In (y : A) (l : list A) : In y (sort (descending key) l) <-> In y l.
Proof.
  induction l as [|x l IH]; simpl; [reflexivity|].
  unfold sort in IH |- *. simpl. rewrite sort_insert_In, IH. intuition congruence.
Qed.

Lemma sort_nonempty (x : A) (l : list A) : sort (descending key) (x :: l) <> [].
Proof.
  intros Hnil. assert (Hin : In x (sort (descending key) (x :: l))) by (apply sort_In; now left).
  rewrite Hnil in Hin. exact Hin.
Qed.

(** With every key defined, the first element after sorting carries a
    greatest key. *)
Lemma sort_head_greatest (l : list A) (h : A) (rest : list A) :
  (forall x, In x l -> key x <> None) ->
  sort (descending key) l = h :: rest ->
  exists t, key h = Some t /\ forall x u, In x l -> key x = Some u -> u <= t.
Proof.
  revert h rest. induction l as [|x l IH]; intros h rest Hdef Hsort.
  - discriminate.
  - unfold sort in Hsort. simpl in Hsort. fold (sort (descending key) l) in Hsort.
    destruct (sort (descending key) l) as [|h' rest'] eqn:Hs.
    + simpl in Hsort. injection Hsort as <- <-.
      assert (Hl : l = []).
      { destruct l as [|z l]; [reflexivity|]. now apply sort_nonempty in Hs. }
      subst l. destruct (key x) as [t|] eqn:Hx; [|exfalso; apply (Hdef x); simpl; auto].
      exists t. split; [reflexivity|]. intros y u [<-|[]] Hy. rewrite Hx in Hy.
      injection Hy as <-. lia.
    + destruct (IH h' rest') as [t' [Hh' Hmax]]; [intros z Hz; apply Hdef; now right | reflexivity |].
      destruct (key x) as [t|] eqn:Hx; [|exfalso; apply (Hdef x); simpl; auto].
      simpl in Hsort. unfold descending in Hsort. rewrite Hh', Hx in Hsort. simpl in Hsort.
      destruct (t' - t <=? 0) eqn:Hcmp.
      * injection Hsort as <- <-. exists t. split; [exact Hx|].
        apply Z.leb_le in Hcmp.
        intros y u [<-|Hy] Hu.
        -- rewrite Hx in Hu. injection Hu as <-. lia.
        -- specialize (Hmax y u Hy Hu). lia.
      * injection Hsort as <- <-. exists t'. split; [exact Hh'|].
        apply Z.leb_gt in Hcmp.
        intros y u [<-|Hy] Hu.
        -- rewrite Hx in Hu. injection Hu as <-. lia.
        -- exact (Hmax y u Hy Hu).
Qed.

End SortFacts.

(** ** The selection step *)

Lemma isPublished_exact (r : RawEpisode) :
  isPublished r = true <-> published_state r = "PUBLISHED".
Proof. unfold isPublished. apply String.eqb_eq. Qed.

Lemma byDateDescending_descending `{DateApi} :
  byDateDescending = descending timestamp.
Proof. reflexivity. Qed.

(** C2 as stated fails when a published record carries a date that does
    not parse: its comparisons are [NaN], the sort leaves the three records
    where they are, and the older of the two dated records is selected
    although a newer published one is in the collection. *)
Lemma invalid_date_hides_newer_episode :
  (forall r, In r MoreSample.mixedFeed -> published_state r = "PUBLISHED") /\
  selectLatest MoreSample.mixedFeed = Returned Sample.published40 /\
  timestamp Sample.published40 = Some 1709251200000 /\
  In MoreSample.published41 MoreSample.mixedFeed /\
  timestamp MoreSample.published41 = Some 1709337600000 /\
  ~ (exists latest t,
       selectLatest MoreSample.mixedFeed = Returned latest /\
       timestamp latest = Some t /\
       forall r u, In r MoreSample.mixedFeed -> published_state r = "PUBLISHED" ->
                   timestamp r = Some u -> u <= t).
Proof.
  split; [intros r [<-|[<-|[<-|[]]]]; reflexivity|].
  split; [reflexivity|]. split; [reflexivity|].
  split; [simpl; auto|]. split; [reflexivity|].
  intros [latest [t [Hsel [Ht Hmax]]]].
  assert (Hlatest : latest = Sample.published40).
  { assert (Hrun : selectLatest MoreSample.mixedFeed = Returned Sample.published40)
      by reflexivity.
    rewrite Hrun in Hsel. now injection Hsel as <-. }
  subst latest.
  assert (Ht' : timestamp Sample.published40 = Some 1709251200000) by reflexivity.
  rewrite Ht' in Ht. injection Ht as <-.
  specialize (Hmax MoreSample.published41 1709337600000).
  assert (Hle : 1709337600000 <= 1709251200000).
  { apply Hmax; [simpl; auto | reflexivity | reflexivity]. }
  lia.
Qed.

(** C2, amended: in a collection with at least one record whose state is
    exactly PUBLISHED, and whose published records all carry a valid
    publication date, the selection returns a record of the collection that
    is published and whose publication timestamp is greatest among the
    published records; the episode handed back is the one built from that
    record. *)
Theorem selectLatest_newest_published `{DateApi} (eps : list RawEpisode) :
  (exists r, In r eps /\ published_state r = "PUBLISHED") ->
  (forall r, In r eps -> published_state r = "PUBLISHED" -> timestamp r <> None) ->
  exists latest t,
    selectLatest eps = Returned latest /\
    In latest eps /\ published_state latest = "PUBLISHED" /\
    timestamp latest = Some t /\
    (forall r u, In r eps -> published_state r = "PUBLISHED" ->
                 timestamp r = Some u -> u <= t) /\
    (forall now, select eps now = Returned (buildEpisode latest now)).
Proof.
  intros [r0 [Hin0 Hpub0]] Hdef.
  assert (Hfilter : forall r, In r (List.filter isPublished eps) <->
                              In r eps /\ published_state r = "PUBLISHED").
  { intros r. rewrite filter_In, isPublished_exact. reflexivity. }
  unfold select, selectLatest.
  destruct (List.filter isPublished eps) as [|p ps] eqn:Hf.
  - exfalso. apply (proj2 (Hfilter r0)). split; assumption.
  - rewrite byDateDescending_descending.
    destruct (sort (descending timestamp) (p :: ps)) as [|latest rest] eqn:Hs.
    + exfalso. exact (sort_nonempty timestamp p ps Hs).
    + destruct (sort_head_greatest timestamp (p :: ps) latest rest) as [t [Ht Hmax]].
      * intros x Hx. apply Hfilter in Hx. destruct Hx. now apply Hdef.
      * exact Hs.
      * assert (Hl : In latest (p :: ps)).
        { apply (sort_In timestamp). rewrite Hs. now left. }
        apply Hfilter in Hl. destruct Hl as [Hl1 Hl2].
        exists latest, t. repeat split; try assumption.
        intros r u Hr Hp Hu. apply (Hmax r u); [apply Hfilter; split; assumption | exact Hu].
Qed.

(** The spec's scenario: the newer draft is passed over and episode 40 is
    selected. *)
Lemma selectLatest_newest_published_witness :
  exists latest t,
    selectLatest Sample.feed = Returned latest /\
    In latest Sample.feed /\ published_state latest = "PUBLISHED" /\
    timestamp latest = Some t /\
    (forall r u, In r Sample.feed -> published_state r = "PUBLISHED" ->
                 timestamp r = Some u -> u <= t) /\
    (forall now, select Sample.feed now = Returned (buildEpisode latest now)).
Proof.
  apply (selectLatest_newest_published Sample.feed).
  - exists Sample.published40. split; [simpl; auto | reflexivity].
  - intros r [<-|[<-|[]]] Hp; [discriminate | discriminate Hp].
Defined.

Example selects_episode_40 :
  option_map episodeNumber
    (match select Sample.feed 0 with Returned e => Some e | Thrown _ => None end) = Some 40.
Proof. reflexivity. Qed.

Lemma selectLatest_none_published `{DateApi} (eps : list RawEpisode) :
  (forall r, In r eps -> published_state r <> "PUBLISHED") ->
  selectLatest eps = Thrown NoPublishedEpisodeError.
Proof.
  intros Hnone. unfold selectLatest.
  destruct (List.filter isPublished eps) as [|p ps] eqn:Hf; [reflexivity|].
  exfalso. assert (Hp : In p (List.filter isPublished eps)) by (rewrite Hf; now left).
  apply filter_In in Hp. destruct Hp as [Hin Hp]. apply isPublished_exact in Hp.
  exact (Hnone p Hin Hp).
Qed.

(** C3 as stated fails on the empty collection: the guard that precedes the
    filter rejects it with the "No episodes available" error, so the error
    raised is not the no-published-episode one; the same happens through
    the whole resolution on a cold cache. *)
Lemma empty_collection_is_upstream_error :
  selectFromPayload {| episodes := Some [] |} 0 = Thrown UpstreamError /\
  fst (fetchLatestEpisode
         {| get_fault := None; set_fault := None; remove_fault := None;
            fetch_result := Returned Sample.emptyResponse;
            now_read := 0; now_build := 0 |} Sample.cold) = Thrown UpstreamError /\
  UpstreamError <> NoPublishedEpisodeError /\
  ~ (forall eps : list RawEpisode,
        (forall r, In r eps -> published_state r <> "PUBLISHED") ->
        forall now, selectFromPayload {| episodes := Some eps |} now
                    = Thrown NoPublishedEpisodeError).
Proof.
  split; [reflexivity|]. split; [reflexivity|]. split; [discriminate|].
  intros Hclaim. specialize (Hclaim [] (fun r Hin => match Hin with end) 0).
  discriminate Hclaim.
Qed.

(** C3, amended: every non-empty collection without a published record is
    rejected with the no-published-episode error, whatever the states of
    its records; the empty collection is rejected with the upstream
    "No episodes available" error. *)
Theorem no_published_episode_error `{DateApi} (eps : list RawEpisode) (now : Z) :
  (forall r, In r eps -> published_state r <> "PUBLISHED") ->
  (eps <> [] ->
     selectFromPayload {| episodes := Some eps |} now = Thrown NoPublishedEpisodeError) /\
  (eps = [] ->
     selectFromPayload {| episodes := Some eps |} now = Thrown UpstreamError).
Proof.
  intros Hnone. split.
  - intros Hne. unfold selectFromPayload, requireEpisodes, select. simpl.
    destruct eps as [|r eps]; [contradiction|].
    now rewrite selectLatest_none_published.
  - intros ->. reflexivity.
Qed.

Lemma no_published_episode_error_witness :
  selectFromPayload {| episodes := Some [Sample.draft41] |} 0
  = Thrown NoPublishedEpisodeError.
Proof.
  apply (no_published_episode_error [Sample.draft41] 0).
  - intros r [<-|[]]. discriminate.
  - discriminate.
Defined.

(** C8 as stated fails: the record carries [fetchedAt], read from the clock
    when the record is built, so two selections over the same collection at
    different times differ. *)
Lemma select_depends_on_clock :
  select Sample.feed 0 <> select Sample.feed 1.
Proof. discriminate. Qed.

(** C8, amended: two selections over the same collection either both fail
    with the same error or return records with the same title, date,
    episode number, page address and audio address; [fetchedAt] is the clock
    reading of each invocation, so with equal readings the records are
    equal. *)
Theorem select_deterministic_but_clock `{DateApi} (eps : list RawEpisode) (now1 now2 : Z) :
  same_but_fetchedAt (select eps now1) (select eps now2) /\
  (forall e, select eps now1 = Returned e -> fetchedAt e = now1) /\
  (now1 = now2 -> select eps now1 = select eps now2).
Proof.
  unfold select. destruct (selectLatest eps) as [latest|e]; simpl.
  - repeat split; try reflexivity.
    + intros e He. injection He as <-. reflexivity.
    + intros ->. reflexivity.
  - repeat split; try reflexivity. intros e' He'. discriminate.
Qed.

Lemma select_deterministic_but_clock_witness :
  same_but_fetchedAt (select Sample.feed 0) (select Sample.feed 1) /\
  select Sample.feed 5 = select Sample.feed 5.
Proof.
  destruct (select_deterministic_but_clock Sample.feed 0 1) as [Hsame _].
  destruct (select_deterministic_but_clock Sample.feed 5 5) as [_ [_ Heq]].
  split; [exact Hsame | exact (Heq eq_refl)].
Defined.

(** ** The cache and the resolver *)

Lemma fresh_or_expired (now : Z) (c : Episode) :
  (now - fetchedAt c <? CACHE_DURATION_MS) = true <-> fresh now c.
Proof. unfold fresh. apply Z.ltb_lt. Qed.

Lemma no_valid_entry_iff (now : Z) (st : Store) :
  no_valid_entry now st <-> ~ exists c, slot st = Some c /\ fresh now c.
Proof.
  unfold no_valid_entry, fresh. split.
  - intros [Hnone | [c [Hc Hold]]] [c' [Hc' Hfresh]]; [congruence|].
    rewrite Hc in Hc'. injection Hc' as <-. lia.
  - intros Hno. destruct (slot st) as [c|]; [right | now left].
    exists c. split; [reflexivity|].
    destruct (Z_lt_ge_dec (now - fetchedAt c) CACHE_DURATION_MS) as [Hlt|Hge]; [|exact Hge].
    exfalso. apply Hno. exists c. split; [reflexivity | exact Hlt].
Qed.

(** What [getCachedEpisode] computes, case by case. *)
Lemma getCachedEpisode_cases `{DateApi} (env : Env) (st : Store) :
  getCachedEpisode env st =
  (Returned match get_fault env, slot st with
            | None, Some c =>
                if now_read env - fetchedAt c <? CACHE_DURATION_MS then Some c else None
            | _, _ => None
            end, st).
Proof.
  unfold getCachedEpisode, try_catch, bind, storage_get, ret.
  destruct (get_fault env); [reflexivity|].
  destruct (slot st) as [c|]; [|reflexivity].
  destruct (now_read env - fetchedAt c <? CACHE_DURATION_MS); reflexivity.
Qed.

Lemma getCachedEpisode_hit `{DateApi} (env : Env) (st : Store) (c : Episode) :
  get_fault env = None -> slot st = Some c -> fresh (now_read env) c ->
  getCachedEpisode env st = (Returned (Some c), st).
Proof.
  intros Hget Hslot Hfresh. rewrite getCachedEpisode_cases, Hget, Hslot.
  apply fresh_or_expired in Hfresh. now rewrite Hfresh.
Qed.

Lemma getCachedEpisode_miss `{DateApi} (env : Env) (st : Store) :
  get_fault env <> None \/ no_valid_entry (now_read env) st ->
  getCachedEpisode env st = (Returned None, st).
Proof.
  intros Hmiss. rewrite getCachedEpisode_cases.
  destruct (get_fault env) as [e|]; [reflexivity|].
  destruct Hmiss as [Hf | Hno]; [congruence|].
  destruct (slot st) as [c|] eqn:Hslot; [|reflexivity].
  destruct (now_read env - fetchedAt c <? CACHE_DURATION_MS) eqn:Hage; [|reflexivity].
  exfalso. apply no_valid_entry_iff in Hno. apply Hno. exists c.
  split; [exact Hslot | now apply fresh_or_expired].
Qed.

Lemma hit_or_miss `{DateApi} (env : Env) (st : Store) :
  (get_fault env = None /\ exists c, slot st = Some c /\ fresh (now_read env) c) \/
  (get_fault env <> None \/ no_valid_entry (now_read env) st).
Proof.
  destruct (get_fault env) as [e|]; [right; left; discriminate|].
  destruct (slot st) as [c|] eqn:Hslot.
  - destruct (Z_lt_ge_dec (now_read env - fetchedAt c) CACHE_DURATION_MS) as [Hlt|Hge].
    + left. split; [reflexivity|]. exists c. split; [reflexivity | exact Hlt].
    + right. right. right. exists c. split; [exact Hslot | exact Hge].
  - right. right. left. exact Hslot.
Qed.

Lemma hit_excludes_miss `{DateApi} (env : Env) (st : Store) :
  (get_fault env = None /\ exists c, slot st = Some c /\ fresh (now_read env) c) ->
  ~ (get_fault env <> None \/ no_valid_entry (now_read env) st).
Proof.
  intros [Hget Hhit] [Hf | Hno]; [congruence|].
  apply no_valid_entry_iff in Hno. exact (Hno Hhit).
Qed.

Lemma fetchLatestEpisode_hit `{DateApi} (env : Env) (st : Store) (c : Episode) :
  get_fault env = None -> slot st = Some c -> fresh (now_read env) c ->
  fetchLatestEpisode env st = (Returned c, st).
Proof.
  intros Hget Hslot Hfresh. unfold fetchLatestEpisode, bind.
  now rewrite (getCachedEpisode_hit env st c).
Qed.

(** The resolution after a miss, case by case. *)
Lemma fetchLatestEpisode_miss `{DateApi} (env : Env) (st : Store) :
  get_fault env <> None \/ no_valid_entry (now_read env) st ->
  fetchLatestEpisode env st =
  let called := {| slot := slot st; fetch_calls := S (fetch_calls st) |} in
  match fetch_result env with
  | Thrown e => (Thrown e, called)
  | Returned response =>
      if ok response then
        match json response with
        | Thrown e => (Thrown e, called)
        | Returned data =>
            match selectFromPayload data (now_build env) with
            | Thrown e => (Thrown e, called)
            | Returned episode =>
                (Returned episode,
                 {| slot := match set_fault env with
                            | None => Some episode
                            | Some _ => slot st
                            end;
                    fetch_calls := S (fetch_calls st) |})
            end
        end
      else (Thrown (Error ("API request failed: " ++ number_to_string (status response))),
            called)
  end.
Proof.
  intros Hmiss. unfold fetchLatestEpisode, bind at 1.
  rewrite (getCachedEpisode_miss env st Hmiss).
  unfold bind, fetch, throw, lift, ret, cacheEpisode, try_catch, storage_set.
  destruct (fetch_result env) as [response|e]; [|reflexivity].
  destruct (ok response); simpl; [|reflexivity].
  destruct (json response) as [data|e]; [|reflexivity].
  destruct (selectFromPayload data (now_build env)) as [episode|e]; [|reflexivity].
  destruct (set_fault env); reflexivity.
Qed.

(** On a miss exactly one [fetch] is issued, however it completes. *)
Lemma fetchLatestEpisode_miss_calls `{DateApi} (env : Env) (st : Store) :
  get_fault env <> None \/ no_valid_entry (now_read env) st ->
  fetch_calls (snd (fetchLatestEpisode env st)) = S (fetch_calls st).
Proof.
  intros Hmiss. rewrite (fetchLatestEpisode_miss env st Hmiss). simpl.
  destruct (fetch_result env) as [response|e]; [|reflexivity].
  destruct (ok response); [|reflexivity].
  destruct (json response) as [data|e]; [|reflexivity].
  destruct (selectFromPayload data (now_build env)) as [episode|e]; reflexivity.
Qed.

Lemma fetchLatestEpisode_miss_success `{DateApi} (env : Env) (st : Store) (episode : Episode) :
  get_fault env <> None \/ no_valid_entry (now_read env) st ->
  fetch_succeeds env episode ->
  fetchLatestEpisode env st =
  (Returned episode,
   {| slot := match set_fault env with None => Some episode | Some _ => slot st end;
      fetch_calls := S (fetch_calls st) |}).
Proof.
  intros Hmiss [response [data [Hfetch [Hok [Hjson Hsel]]]]].
  rewrite (fetchLatestEpisode_miss env st Hmiss). simpl.
  now rewrite Hfetch, Hok, Hjson, Hsel.
Qed.

(** C1 as stated fails when the storage read rejects: a fresh entry is
    stored, yet the resolver goes to the network; and when the write
    rejects, the fetched record is returned but not stored. *)
Lemma read_failure_fetches_despite_fresh_entry :
  ~ no_valid_entry (now_read (Sample.readDown 0)) Sample.warm /\
  network_calls (Sample.readDown 0) Sample.warm = 1%nat /\
  ~ ((0 < network_calls (Sample.readDown 0) Sample.warm)%nat <->
     no_valid_entry (now_read (Sample.readDown 0)) Sample.warm) /\
  no_valid_entry (now_read (Sample.writeDown 0)) Sample.cold /\
  fetch_succeeds (Sample.writeDown 0) Sample.cachedAtZero /\
  fst (fetchLatestEpisode (Sample.writeDown 0) Sample.cold) = Returned Sample.cachedAtZero /\
  slot (snd (fetchLatestEpisode (Sample.writeDown 0) Sample.cold)) = None.
Proof.
  assert (Hvalid : ~ no_valid_entry (now_read (Sample.readDown 0)) Sample.warm).
  { intros [Hnone | [c [Hc Hold]]]; [discriminate|].
    injection Hc as <-. vm_compute in Hold. now apply Hold. }
  split; [exact Hvalid|]. split; [reflexivity|]. split.
  - intros [Hcalls _]. apply Hvalid, Hcalls. vm_compute. lia.
  - split; [now left|]. split; [|split; reflexivity].
    exists Sample.goodResponse, {| episodes := Some Sample.feed |}.
    repeat split; reflexivity.
Qed.

(** C1, amended: [fetchLatestEpisode] issues a network call if and only if
    the storage read fails or no valid entry exists, and then exactly one.
    When the read succeeds and finds an entry younger than the window it
    returns that entry, issues no call and leaves the store as it was.  On a
    miss whose network call succeeds the fetched record is returned, and it
    is stored when the storage write succeeds (a failed write leaves the
    slot as it was). *)
Theorem fetchLatestEpisode_cache_or_network `{DateApi} (env : Env) (st : Store) :
  (network_calls env st = 1%nat <->
     get_fault env <> None \/ no_valid_entry (now_read env) st) /\
  (network_calls env st = 0%nat <->
     get_fault env = None /\ exists c, slot st = Some c /\ fresh (now_read env) c) /\
  (forall c, get_fault env = None -> slot st = Some c -> fresh (now_read env) c ->
     fetchLatestEpisode env st = (Returned c, st)) /\
  (forall episode,
     get_fault env <> None \/ no_valid_entry (now_read env) st ->
     fetch_succeeds env episode ->
     fst (fetchLatestEpisode env st) = Returned episode /\
     slot (snd (fetchLatestEpisode env st)) =
       match set_fault env with None => Some episode | Some _ => slot st end).
Proof.
  assert (Hmiss : get_fault env <> None \/ no_valid_entry (now_read env) st ->
                  network_calls env st = 1%nat).
  { intros Hm. unfold network_calls. rewrite (fetchLatestEpisode_miss_calls env st Hm). lia. }
  assert (Hhit : (get_fault env = None /\ exists c, slot st = Some c /\ fresh (now_read env) c) ->
                 network_calls env st = 0%nat).
  { intros [Hg [c [Hc Hf]]]. unfold network_calls.
    rewrite (fetchLatestEpisode_hit env st c Hg Hc Hf). simpl. lia. }
  split; [|split; [|split]].
  - split; [|exact Hmiss].
    intros Hone. destruct (hit_or_miss env st) as [Hh | Hm]; [|exact Hm].
    rewrite (Hhit Hh) in Hone. discriminate.
  - split; [|exact Hhit].
    intros Hzero. destruct (hit_or_miss env st) as [Hh | Hm]; [exact Hh|].
    rewrite (Hmiss Hm) in Hzero. discriminate.
  - intros c. apply fetchLatestEpisode_hit.
  - intros episode Hm Hok.
    rewrite (fetchLatestEpisode_miss_success env st episode Hm Hok). split; reflexivity.
Qed.

(** The spec's scenarios: an entry 29 minutes old is served from the cache,
    an entry 31 minutes old is fetched afresh and the fresh record stored. *)
Lemma fetchLatestEpisode_cache_or_network_witness :
  fetchLatestEpisode (Sample.calm (29 * Sample.minute)) Sample.warm
    = (Returned Sample.cachedAtZero, Sample.warm) /\
  network_calls (Sample.calm (31 * Sample.minute)) Sample.warm = 1%nat /\
  slot (snd (fetchLatestEpisode (Sample.calm (31 * Sample.minute)) Sample.warm))
    = Some (buildEpisode Sample.published40 (31 * Sample.minute)).
Proof.
  destruct (fetchLatestEpisode_cache_or_network (Sample.calm (29 * Sample.minute)) Sample.warm)
    as [_ [_ [Hhit _]]].
  destruct (fetchLatestEpisode_cache_or_network (Sample.calm (31 * Sample.minute)) Sample.warm)
    as [[_ Hcall] [_ [_ Hstore]]].
  assert (Hold : get_fault (Sample.calm (31 * Sample.minute)) <> None \/
                 no_valid_entry (now_read (Sample.calm (31 * Sample.minute))) Sample.warm).
  { right. right. exists Sample.cachedAtZero. split; [reflexivity | vm_compute; discriminate]. }
  split; [apply Hhit; [reflexivity | reflexivity | vm_compute; reflexivity]|].
  split; [exact (Hcall Hold)|].
  apply (Hstore (buildEpisode Sample.published40 (31 * Sample.minute)) Hold).
  exists Sample.goodResponse, {| episodes := Some Sample.feed |}.
  repeat split; reflexivity.
Defined.

(** ** The refresh path and storage failures *)

Lemma clearCache_cases `{DateApi} (env : Env) (st : Store) :
  clearCache env st =
  (Returned tt, match remove_fault env with None => emptied st | Some _ => st end).
Proof.
  unfold clearCache, try_catch, storage_remove, ret, emptied.
  destruct (remove_fault env); reflexivity.
Qed.

Lemma cacheEpisode_cases `{DateApi} (env : Env) (episode : Episode) (st : Store) :
  cacheEpisode env episode st =
  (Returned tt,
   match set_fault env with
   | None => {| slot := Some episode; fetch_calls := fetch_calls st |}
   | Some _ => st
   end).
Proof.
  unfold cacheEpisode, try_catch, storage_set, ret.
  destruct (set_fault env); reflexivity.
Qed.

Lemma refresh_unfold `{DateApi} (env : Env) (st : Store) :
  refresh env st =
  loadEpisode env (match remove_fault env with None => emptied st | Some _ => st end).
Proof. unfold refresh. now rewrite clearCache_cases. Qed.

Lemma loadEpisode_calls `{DateApi} (env : Env) (st : Store) :
  fetch_calls (snd (loadEpisode env st)) = fetch_calls (snd (fetchLatestEpisode env st)).
Proof.
  unfold loadEpisode. destruct (fetchLatestEpisode env st) as [[episode|e] st']; reflexivity.
Qed.

(** C4 as stated fails when the storage remove rejects: the handler goes on
    with the entry still stored, the read finds it fresh, and the refresh
    ends in the player view without any network call. *)
Lemma refresh_without_network_call :
  refresh_calls (Sample.removeDown 0) Sample.warm = 0%nat /\
  refresh (Sample.removeDown 0) Sample.warm = (Player Sample.cachedAtZero, Sample.warm).
Proof. split; reflexivity. Qed.

(** C4, amended: for every prior cache state and every outcome of the
    storage read and write, the refresh handler issues exactly one network
    call when the cache clear succeeds; when the clear fails it issues one
    exactly when the following read fails or finds no valid entry, and none
    otherwise. *)
Theorem refresh_fetches_once_cleared `{DateApi} (env : Env) (st : Store) :
  (remove_fault env = None -> refresh_calls env st = 1%nat) /\
  (refresh_calls env st = 1%nat <->
     remove_fault env = None \/ get_fault env <> None \/
     no_valid_entry (now_read env) st) /\
  (refresh_calls env st = 0%nat <->
     remove_fault env <> None /\ get_fault env = None /\
     exists c, slot st = Some c /\ fresh (now_read env) c).
Proof.
  assert (Hcleared : remove_fault env = None -> refresh_calls env st = 1%nat).
  { intros Hrm. unfold refresh_calls. rewrite refresh_unfold, Hrm, loadEpisode_calls.
    rewrite fetchLatestEpisode_miss_calls; [simpl; lia|].
    right. unfold no_valid_entry. left. reflexivity. }
  assert (Hkept : remove_fault env <> None -> refresh_calls env st = network_calls env st).
  { intros Hrm. unfold refresh_calls, network_calls. rewrite refresh_unfold, loadEpisode_calls.
    destruct (remove_fault env); [reflexivity | congruence]. }
  destruct (fetchLatestEpisode_cache_or_network env st) as [Hone [Hzero _]].
  split; [exact Hcleared|]. split; split.
  - intros Hcalls. destruct (remove_fault env) as [e|] eqn:Hrm; [|now left].
    right. apply Hone. rewrite <- Hkept; [exact Hcalls | discriminate].
  - intros [Hrm | Hmiss]; [now apply Hcleared|].
    destruct (remove_fault env) as [e|] eqn:Hrm; [|now apply Hcleared].
    rewrite Hkept; [now apply Hone | discriminate].
  - intros Hcalls. destruct (remove_fault env) as [e|] eqn:Hrm.
    + split; [discriminate|]. apply Hzero. rewrite <- Hkept; [exact Hcalls | discriminate].
    + rewrite Hcleared in Hcalls; [discriminate | reflexivity].
  - intros [Hrm Hhit]. rewrite (Hkept Hrm). now apply Hzero.
Qed.

(** A stale entry, a fresh entry and an empty cache all lead to one network
    call when the clear succeeds. *)
Lemma refresh_fetches_once_cleared_witness :
  refresh_calls (Sample.calm 0) Sample.warm = 1%nat /\
  refresh_calls (Sample.calm (31 * Sample.minute)) Sample.warm = 1%nat /\
  refresh_calls (Sample.readDown 0) Sample.cold = 1%nat.
Proof.
  split; [|split].
  - apply (proj1 (refresh_fetches_once_cleared (Sample.calm 0) Sample.warm)). reflexivity.
  - apply (proj1 (refresh_fetches_once_cleared (Sample.calm (31 * Sample.minute)) Sample.warm)).
    reflexivity.
  - apply (proj1 (refresh_fetches_once_cleared (Sample.readDown 0) Sample.cold)). reflexivity.
Defined.

(** C5: a storage failure never leaves the cache functions.  A failed read
    makes [getCachedEpisode] return the absent value, a failed write and a
    failed clear return normally, each leaving the store untouched; and a
    resolution whose read fails completes as a resolution over an empty
    cache does: same returned record or error, same number of network
    calls. *)
Theorem storage_failures_are_swallowed `{DateApi} (env : Env) (st : Store) (e : JsError) :
  (get_fault env = Some e -> getCachedEpisode env st = (Returned None, st)) /\
  (set_fault env = Some e ->
     forall episode, cacheEpisode env episode st = (Returned tt, st)) /\
  (remove_fault env = Some e -> clearCache env st = (Returned tt, st)) /\
  (get_fault env = Some e ->
     fst (fetchLatestEpisode env st)
       = fst (fetchLatestEpisode (with_working_read env) (emptied st)) /\
     network_calls env st = network_calls (with_working_read env) (emptied st)).
Proof.
  split; [|split; [|split]].
  - intros Hget. rewrite getCachedEpisode_cases, Hget. reflexivity.
  - intros Hset episode. rewrite cacheEpisode_cases, Hset. reflexivity.
  - intros Hrm. rewrite clearCache_cases, Hrm. reflexivity.
  - intros Hget. unfold network_calls.
    rewrite (fetchLatestEpisode_miss env st) by (left; congruence).
    rewrite (fetchLatestEpisode_miss (with_working_read env) (emptied st))
      by (right; unfold no_valid_entry; left; reflexivity).
    simpl.
    destruct (fetch_result env) as [response|e']; [|split; reflexivity].
    destruct (ok response); [|split; reflexivity].
    destruct (json response) as [data|e']; [|split; reflexivity].
    destruct (selectFromPayload data (now_build env)) as [episode|e']; split; reflexivity.
Qed.

Lemma storage_failures_are_swallowed_witness :
  getCachedEpisode (Sample.readDown 0) Sample.warm = (Returned None, Sample.warm) /\
  cacheEpisode (Sample.writeDown 0) Sample.cachedAtZero Sample.cold
    = (Returned tt, Sample.cold) /\
  clearCache (Sample.removeDown 0) Sample.warm = (Returned tt, Sample.warm) /\
  fst (fetchLatestEpisode (Sample.readDown 0) Sample.warm)
    = fst (fetchLatestEpisode (Sample.calm 0) Sample.cold).
Proof.
  destruct (storage_failures_are_swallowed (Sample.readDown 0) Sample.warm Sample.storageDown)
    as [Hread [_ [_ Hcold]]].
  destruct (storage_failures_are_swallowed (Sample.writeDown 0) Sample.cold Sample.storageDown)
    as [_ [Hwrite _]].
  destruct (storage_failures_are_swallowed (Sample.removeDown 0) Sample.warm Sample.storageDown)
    as [_ [_ [Hclear _]]].
  split; [exact (Hread eq_refl)|].
  split; [exact (Hwrite eq_refl Sample.cachedAtZero)|].
  split; [exact (Hclear eq_refl)|].
  exact (proj1 (Hcold eq_refl)).
Defined.

(** ** The document under class changes *)

Lemma paths_unfold (d : Element) : paths d = [] :: child_paths 0 (children d).
Proof. destruct d. reflexivity. Qed.

Lemma with_document_same (pg : Page) : with_document pg (document pg) = pg.
Proof. destruct pg. reflexivity. Qed.

Lemma with_document_twice (pg : Page) (d d' : Element) :
  with_document (with_document pg d) d' = with_document pg d'.
Proof. reflexivity. Qed.

Section AlterAt.
Variable f : Element -> Element.
Hypothesis f_children : forall e, children (f e) = children e.
Hypothesis f_attrs : forall e, attrs (f e) = attrs e.

Lemma get_alter_at_self (c : path) (d : Element) :
  get c (alter_at f c d) = f <$> get c d.
Proof.
  revert d. induction c as [|i c IH]; intros d; [reflexivity|].
  destruct d as [t i' h cl ch]. simpl. rewrite list_lookup_alter_eq.
  destruct (ch !! i) as [x|]; simpl; [apply IH | reflexivity].
Qed.

Lemma attrs_alter_at (c q : path) (d : Element) :
  attrs <$> get q (alter_at f c d) = attrs <$> get q d.
Proof.
  revert d q. induction c as [|i c IH]; intros d q.
  - destruct q as [|j q]; simpl; [now rewrite f_attrs | now rewrite f_children].
  - destruct d as [t i' h cl ch]. destruct q as [|j q]; [reflexivity|]. simpl.
    destruct (decide (i = j)) as [->|Hne].
    + rewrite list_lookup_alter_eq. destruct (ch !! j) as [x|]; simpl; [apply IH | reflexivity].
    + now rewrite list_lookup_alter_ne.
Qed.

Lemma child_paths_alter (g : Element -> Element) (i k : nat) (cs : list Element) :
  (forall x, paths (g x) = paths x) ->
  child_paths k (alter g i cs) = child_paths k cs.
Proof.
  intros Hg. revert i k. induction cs as [|x cs IH]; intros i k; [reflexivity|].
  destruct i as [|i].
  - change (alter g 0%nat (x :: cs)) with (g x :: cs). simpl. now rewrite Hg.
  - change (alter g (S i) (x :: cs)) with (x :: alter g i cs). simpl. now rewrite IH.
Qed.

Lemma paths_alter_at (c : path) (d : Element) : paths (alter_at f c d) = paths d.
Proof.
  revert d. induction c as [|i c IH]; intros d.
  - simpl. now rewrite !paths_unfold, f_children.
  - destruct d as [t i' h cl ch]. simpl alter_at. rewrite !paths_unfold. simpl children.
    now rewrite child_paths_alter.
Qed.

Lemma similar_alter_at (c : path) (d : Element) : similar d (alter_at f c d).
Proof.
  split; [symmetry; apply paths_alter_at | intros q; symmetry; apply attrs_alter_at].
Qed.

(** A test that an alteration can only switch on stays on. *)
Lemma test_alter_at_mono (obs : Element -> bool) (c q : path) (d : Element) :
  (forall e, obs e = true -> obs (f e) = true) ->
  (forall t i h cl ch ch', obs (Elem t i h cl ch) = obs (Elem t i h cl ch')) ->
  test_at d obs q = true -> test_at (alter_at f c d) obs q = true.
Proof.
  intros Hmono Hroot. unfold test_at. revert d q. induction c as [|i c IH]; intros d q.
  - destruct q as [|j q]; simpl; [apply Hmono | now rewrite f_children].
  - destruct d as [t i' h cl ch]. destruct q as [|j q]; simpl.
    + intros Ho. now rewrite (Hroot t i' h cl _ ch).
    + destruct (decide (i = j)) as [->|Hne].
      * rewrite list_lookup_alter_eq. destruct (ch !! j) as [x|]; simpl; [apply IH | trivial].
      * now rewrite list_lookup_alter_ne.
Qed.

End AlterAt.

Lemma similar_refl (d : Element) : similar d d.
Proof. split; reflexivity. Qed.

Lemma similar_trans (d1 d2 d3 : Element) : similar d1 d2 -> similar d2 d3 -> similar d1 d3.
Proof.
  intros [Hp Ha] [Hp' Ha']. split; [congruence | intros q; now rewrite Ha, Ha'].
Qed.

Lemma similar_sym (d d' : Element) : similar d d' -> similar d' d.
Proof. intros [Hp Ha]. split; [congruence | intros q; now rewrite Ha]. Qed.

(** A test that reads attributes only gives the same answer on similar
    documents. *)
Lemma test_at_similar (obs : Element -> bool) (d d' : Element) (q : path) :
  (forall e e', attrs e = attrs e' -> obs e = obs e') ->
  similar d d' -> test_at d obs q = test_at d' obs q.
Proof.
  intros Hobs [_ Ha]. specialize (Ha q). unfold test_at.
  destruct (get q d) as [e|], (get q d') as [e'|]; simpl in Ha; try discriminate; [|reflexivity].
  apply Hobs. congruence.
Qed.

Lemma hasTag_attrs (tag : string) (e e' : Element) :
  attrs e = attrs e' -> hasTag tag e = hasTag tag e'.
Proof. unfold attrs, hasTag. intros Ha. injection Ha as -> _ _. reflexivity. Qed.

Lemma isCommunityLink_attrs (e e' : Element) :
  attrs e = attrs e' -> isCommunityLink e = isCommunityLink e'.
Proof. unfold attrs, isCommunityLink. intros Ha. injection Ha as -> _ ->. reflexivity. Qed.

Lemma filter_ext_all {A} (f g : A -> bool) (l : list A) :
  (forall x, f x = g x) -> List.filter f l = List.filter g l.
Proof. intros Hfg. apply filter_ext_in. intros x _. apply Hfg. Qed.

Lemma find_ext_all {A} (f g : A -> bool) (l : list A) :
  (forall x, f x = g x) -> List.find f l = List.find g l.
Proof.
  intros Hfg. induction l as [|x l IH]; simpl; [reflexivity|]. now rewrite Hfg, IH.
Qed.

Lemma communityLinks_similar (d d' : Element) :
  similar d d' -> communityLinks d = communityLinks d'.
Proof.
  intros Hs. unfold communityLinks. rewrite (proj1 Hs). apply filter_ext_all.
  intros q. apply test_at_similar; [apply isCommunityLink_attrs | exact Hs].
Qed.

Lemma closest_path_similar (d d' : Element) (link : path) (tag : string) :
  similar d d' -> closest_path d link tag = closest_path d' link tag.
Proof.
  intros Hs. unfold closest_path. apply find_ext_all.
  intros q. apply test_at_similar; [apply hasTag_attrs | exact Hs].
Qed.

Lemma href_or_empty_similar (d d' : Element) (link : path) :
  similar d d' -> href_or_empty d link = href_or_empty d' link.
Proof.
  intros [_ Ha]. specialize (Ha link). unfold href_or_empty.
  destruct (get link d) as [e|], (get link d') as [e'|]; simpl in Ha; try discriminate;
    [|reflexivity].
  unfold attrs in Ha. injection Ha as _ _ ->. reflexivity.
Qed.

Lemma target_similar (d d' : Element) (link : path) :
  similar d d' -> target d link = target d' link.
Proof.
  intros Hs. unfold target, container_of.
  now rewrite (href_or_empty_similar d d' link Hs), !(closest_path_similar d d' link _ Hs).
Qed.

Lemma valid_similar (d d' : Element) (q : path) :
  similar d d' -> is_Some (get q d) -> is_Some (get q d').
Proof.
  intros [_ Ha] [e He]. specialize (Ha q). rewrite He in Ha.
  destruct (get q d'); [eauto | discriminate].
Qed.

(** ** One step of the pass *)

Lemma addClass_children (cls : string) (e : Element) :
  children (addClass cls e) = children e.
Proof. destruct e. reflexivity. Qed.

Lemma addClass_attrs (cls : string) (e : Element) : attrs (addClass cls e) = attrs e.
Proof. destruct e. reflexivity. Qed.

Lemma hasClass_addClass (cls : string) (e : Element) : hasClass cls (addClass cls e) = true.
Proof.
  destruct e as [t i h cl ch]. unfold hasClass. simpl.
  destruct (existsb (String.eqb cls) cl) eqn:Hin; [exact Hin|].
  rewrite existsb_app. simpl. now rewrite String.eqb_refl, orb_true_r.
Qed.

Lemma hasClass_addClass_mono (cls cls' : string) (e : Element) :
  hasClass cls e = true -> hasClass cls (addClass cls' e) = true.
Proof.
  destruct e as [t i h cl ch]. unfold hasClass. simpl. intros Hin.
  destruct (existsb (String.eqb cls') cl); [exact Hin|].
  rewrite existsb_app, Hin. reflexivity.
Qed.

Lemma addClass_present (cls : string) (e : Element) :
  hasClass cls e = true -> addClass cls e = e.
Proof. destruct e as [t i h cl ch]. unfold hasClass. simpl. now intros ->. Qed.

Lemma similar_mark (d : Element) (c : path) : similar d (mark d c).
Proof. apply similar_alter_at; [apply addClass_children | apply addClass_attrs]. Qed.

Lemma similar_highlight_one (d : Element) (link : path) : similar d (highlight_one d link).
Proof.
  unfold highlight_one. destruct (target d link) as [c|]; [|apply similar_refl].
  destruct (is_marked d c); [apply similar_refl | apply similar_mark].
Qed.

Lemma is_marked_mark_self (d : Element) (c : path) :
  is_Some (get c d) -> is_marked (mark d c) c = true.
Proof.
  intros [e He]. unfold is_marked, mark, test_at.
  rewrite get_alter_at_self, He. simpl. apply hasClass_addClass.
Qed.

Lemma is_marked_mark_mono (d : Element) (c q : path) :
  is_marked d q = true -> is_marked (mark d c) q = true.
Proof.
  apply test_alter_at_mono.
  - apply addClass_children.
  - intros e. apply hasClass_addClass_mono.
  - reflexivity.
Qed.

Lemma is_marked_highlight_one_mono (d : Element) (link q : path) :
  is_marked d q = true -> is_marked (highlight_one d link) q = true.
Proof.
  intros Hq. unfold highlight_one. destruct (target d link) as [c|]; [|exact Hq].
  destruct (is_marked d c); [exact Hq | now apply is_marked_mark_mono].
Qed.

Lemma test_at_valid (d : Element) (obs : Element -> bool) (q : path) :
  test_at d obs q = true -> is_Some (get q d).
Proof. unfold test_at. destruct (get q d); [eauto | discriminate]. Qed.

Lemma closest_path_valid (d : Element) (link c : path) (tag : string) :
  closest_path d link tag = Some c -> test_at d (hasTag tag) c = true.
Proof. unfold closest_path. intros Hfind. now apply find_some in Hfind. Qed.

Lemma container_of_valid (d : Element) (link c : path) :
  container_of d link = Some c -> is_Some (get c d).
Proof.
  unfold container_of. destruct (closest_path d link "article") as [a|] eqn:Ha.
  - intros Hc. injection Hc as <-. apply closest_path_valid in Ha. now apply test_at_valid in Ha.
  - intros Hd. apply closest_path_valid in Hd. now apply test_at_valid in Hd.
Qed.

Lemma target_valid (d : Element) (link c : path) :
  target d link = Some c -> is_Some (get c d).
Proof.
  unfold target. destruct (isOfficial (href_or_empty d link)); [|discriminate].
  apply container_of_valid.
Qed.

Lemma highlight_one_marks (d : Element) (link c : path) :
  target d link = Some c -> is_marked (highlight_one d link) c = true.
Proof.
  intros Ht. unfold highlight_one. rewrite Ht.
  destruct (is_marked d c) eqn:Hm; [exact Hm|].
  apply is_marked_mark_self. now apply (target_valid d link).
Qed.

Lemma highlight_one_settled (d : Element) (link : path) :
  (forall c, target d link = Some c -> is_marked d c = true) ->
  highlight_one d link = d.
Proof.
  intros Hdone. unfold highlight_one. destruct (target d link) as [c|]; [|reflexivity].
  now rewrite (Hdone c).
Qed.

(** ** The whole pass *)

Lemma similar_fold (links : list path) (d : Element) :
  similar d (fold_left highlight_one links d).
Proof.
  revert d. induction links as [|l links IH]; intros d; [apply similar_refl|].
  simpl. eapply similar_trans; [apply similar_highlight_one | apply IH].
Qed.

Lemma is_marked_fold_mono (links : list path) (d : Element) (q : path) :
  is_marked d q = true -> is_marked (fold_left highlight_one links d) q = true.
Proof.
  revert d. induction links as [|l links IH]; intros d Hq; [exact Hq|].
  simpl. apply IH. now apply is_marked_highlight_one_mono.
Qed.

Lemma fold_marks (links : list path) (d : Element) (link c : path) :
  In link links -> target d link = Some c ->
  is_marked (fold_left highlight_one links d) c = true.
Proof.
  revert d. induction links as [|l links IH]; intros d Hin Ht; [destruct Hin|].
  simpl. destruct Hin as [->|Hin].
  - apply is_marked_fold_mono. now apply highlight_one_marks.
  - apply IH; [exact Hin|].
    rewrite <- (target_similar d (highlight_one d l) link); [exact Ht|].
    apply similar_highlight_one.
Qed.

Lemma fold_settled (links : list path) (d : Element) :
  (forall link c, In link links -> target d link = Some c -> is_marked d c = true) ->
  fold_left highlight_one links d = d.
Proof.
  induction links as [|l links IH]; intros Hdone; [reflexivity|].
  simpl. rewrite highlight_one_settled.
  - apply IH. intros link c Hin. apply Hdone. now right.
  - intros c. apply Hdone. now left.
Qed.

(** A node is marked after the pass only if it was marked before or is the
    target of one of the links. *)
Lemma fold_marks_only (links : list path) (d : Element) (q : path) :
  is_marked (fold_left highlight_one links d) q = true ->
  is_marked d q = true \/ exists link, In link links /\ target d link = Some q.
Proof.
  revert d. induction links as [|l links IH]; intros d Hq; [now left|].
  simpl in Hq. apply IH in Hq. destruct Hq as [Hq | [link [Hin Ht]]].
  - unfold highlight_one in Hq. destruct (target d l) as [c|] eqn:Ht; [|now left].
    destruct (is_marked d c) eqn:Hc; [now left|].
    destruct (decide (q = c)) as [->|Hne].
    + right. exists l. split; [now left | exact Ht].
    + left. revert Hq. unfold is_marked, mark, test_at.
      assert (Hget : get q (alter_at (addClass OFFICIAL) c d) = get q d \/
                     exists e, get q d = Some e /\
                       classList <$> get q (alter_at (addClass OFFICIAL) c d)
                       = Some (classList e)).
      { clear -Hne. revert d q Hne. induction c as [|i c IHc]; intros d q Hne.
        - destruct q as [|j q]; [congruence|]. left. simpl. now rewrite addClass_children.
        - destruct d as [t i' h cl ch]. destruct q as [|j q].
          + right. eexists. split; reflexivity.
          + simpl. destruct (decide (i = j)) as [->|Hij].
            * rewrite list_lookup_alter_eq. destruct (ch !! j) as [x|]; simpl; [|now left].
              apply IHc. congruence.
            * rewrite list_lookup_alter_ne by exact Hij. now left. }
      destruct Hget as [-> | [e [He Hcl]]]; [trivial|].
      rewrite He. destruct (get q (alter_at (addClass OFFICIAL) c d)) as [e'|]; [|discriminate].
      simpl in Hcl. injection Hcl as Hcl. unfold hasClass. now rewrite Hcl.
  - right. exists link. split; [now right|].
    rewrite (target_similar d (highlight_one d l) link); [exact Ht|].
    apply similar_highlight_one.
Qed.

Theorem highlight_all_idempotent (d : Element) :
  highlight_all (highlight_all d) = highlight_all d.
Proof.
  unfold highlight_all at 1.
  assert (Hs : similar d (highlight_all d)) by apply similar_fold.
  rewrite <- (communityLinks_similar d (highlight_all d) Hs).
  apply fold_settled. intros link c Hin Ht.
  rewrite <- (target_similar d (highlight_all d) link Hs) in Ht.
  now apply (fold_marks (communityLinks d) d link c).
Qed.

(** ** The script's functions compute the pass *)

Lemma closest_run (pg : Page) (link : path) (tag : string) :
  is_Some (get link (document pg)) ->
  closest (Some link) tag pg = (Returned (closest_path (document pg) link tag), pg).
Proof. intros [e He]. unfold closest, on_element. now rewrite He. Qed.

Lemma classList_contains_run (pg : Page) (c : path) :
  is_Some (get c (document pg)) ->
  classList_contains (Some c) OFFICIAL pg = (Returned (is_marked (document pg) c), pg).
Proof.
  intros [e He]. unfold classList_contains, on_element, is_marked, test_at, ret.
  now rewrite He.
Qed.

Lemma classList_add_run (pg : Page) (c : path) :
  is_Some (get c (document pg)) ->
  classList_add (Some c) OFFICIAL pg
  = (Returned tt, with_document pg (mark (document pg) c)).
Proof. intros [e He]. unfold classList_add, on_element. now rewrite He. Qed.

Lemma highlightLink_run (pg : Page) (link : path) :
  is_Some (get link (document pg)) ->
  highlightLink link pg
  = (Returned tt, with_document pg (highlight_one (document pg) link)).
Proof.
  intros Hlink. pose proof Hlink as [e He].
  unfold highlightLink, highlight_one, target, href_or_empty, container_of.
  unfold bind at 1. unfold getAttribute_href, on_element, ret at 1. rewrite He.
  destruct (isOfficial match href e with Some h => h | None => "" end);
    [|unfold ret; now rewrite with_document_same].
  unfold bind at 1. rewrite (closest_run pg link "article" Hlink).
  destruct (closest_path (document pg) link "article") as [a|] eqn:Ha.
  - assert (Hvalid : is_Some (get a (document pg))).
    { apply closest_path_valid in Ha. now apply test_at_valid in Ha. }
    unfold bind at 1. unfold ret at 1. unfold bind at 1.
    rewrite (classList_contains_run pg a Hvalid).
    destruct (is_marked (document pg) a); simpl.
    + unfold ret. now rewrite with_document_same.
    + apply classList_add_run. exact Hvalid.
  - unfold bind at 1. rewrite (closest_run pg link "div" Hlink).
    destruct (closest_path (document pg) link "div") as [c|] eqn:Hc;
      [|unfold ret; now rewrite with_document_same].
    assert (Hvalid : is_Some (get c (document pg))).
    { apply closest_path_valid in Hc. now apply test_at_valid in Hc. }
    unfold bind at 1. rewrite (classList_contains_run pg c Hvalid).
    destruct (is_marked (document pg) c); simpl.
    + unfold ret. now rewrite with_document_same.
    + apply classList_add_run. exact Hvalid.
Qed.

Lemma forEach_highlightLink_run (links : list path) (pg : Page) :
  (forall link, In link links -> is_Some (get link (document pg))) ->
  forEach links highlightLink pg
  = (Returned tt, with_document pg (fold_left highlight_one links (document pg))).
Proof.
  revert pg. induction links as [|l links IH]; intros pg Hvalid.
  - simpl. unfold ret. now rewrite with_document_same.
  - simpl. unfold bind. rewrite highlightLink_run by (apply Hvalid; now left).
    rewrite IH; [reflexivity|].
    intros link Hin. simpl.
    apply (valid_similar (document pg)); [apply similar_highlight_one|].
    apply Hvalid. now right.
Qed.

Lemma communityLinks_valid (d : Element) (link : path) :
  In link (communityLinks d) -> is_Some (get link d).
Proof.
  unfold communityLinks. intros Hin. apply filter_In in Hin.
  destruct Hin as [_ Htest]. now apply test_at_valid in Htest.
Qed.

Lemma highlightOfficialPosts_run (pg : Page) :
  highlightOfficialPosts pg
  = (Returned tt, with_document pg (highlight_all (document pg))).
Proof.
  unfold highlightOfficialPosts, bind, querySelectorAll_communityLinks.
  fold (communityLinks (document pg)).
  apply forEach_highlightLink_run. apply communityLinks_valid.
Qed.

(** Every node of the document is among its paths. *)
Lemma child_paths_In (cs : list Element) (k j : nat) (q : path) (c : Element) :
  cs !! j = Some c -> In q (paths c) -> In ((k + j)%nat :: q) (child_paths k cs).
Proof.
  revert k j. induction cs as [|x cs IH]; intros k j Hj Hq; [discriminate|].
  simpl. apply in_or_app. destruct j as [|j].
  - left. simpl in Hj. injection Hj as ->. rewrite Nat.add_0_r. now apply in_map.
  - right. replace (k + S j)%nat with (S k + j)%nat by lia. now apply IH.
Qed.

Lemma get_In_paths (q : path) (d e : Element) : get q d = Some e -> In q (paths d).
Proof.
  revert d. induction q as [|j q IH]; intros d Hget; rewrite paths_unfold; [now left|].
  right. simpl in Hget. destruct (children d !! j) as [c|] eqn:Hj; [|discriminate].
  apply (child_paths_In (children d) 0 j q c Hj). now apply IH.
Qed.

Lemma communityLinks_In (d : Element) (link : path) (a : Element) (h : string) :
  get link d = Some a -> localName a = "a" -> href a = Some h ->
  includes "/diggdaily/" h = true -> In link (communityLinks d).
Proof.
  intros Hget Htag Hhref Hinc. unfold communityLinks. apply filter_In. split.
  - now apply (get_In_paths link d a).
  - unfold test_at, isCommunityLink. now rewrite Hget, Htag, Hhref, Hinc.
Qed.

(** ** The marking pass: idempotence, the matching rule, missing containers *)

(** C6: on every page the marking pass returns normally, and run again on
    the document it produced it changes nothing: the page after the second
    pass is the page after the first, so the marked nodes are the same. *)
Theorem highlightOfficialPosts_idempotent (pg : Page) :
  exists once,
    highlightOfficialPosts pg = (Returned tt, once) /\
    highlightOfficialPosts once = (Returned tt, once) /\
    marked (document (snd (highlightOfficialPosts once))) = marked (document once).
Proof.
  exists (with_document pg (highlight_all (document pg))).
  assert (Hagain : highlightOfficialPosts (with_document pg (highlight_all (document pg)))
                   = (Returned tt, with_document pg (highlight_all (document pg)))).
  { rewrite highlightOfficialPosts_run. simpl. now rewrite highlight_all_idempotent. }
  split; [apply highlightOfficialPosts_run|]. split; [exact Hagain|].
  now rewrite Hagain.
Qed.

Example feed_page_marked_once :
  marked (document (snd (highlightOfficialPosts Sample.diggPage))) = [[1; 0; 0]%nat] /\
  marked (document (snd (highlightOfficialPosts (snd (highlightOfficialPosts Sample.diggPage)))))
    = [[1; 0; 0]%nat].
Proof. split; reflexivity. Qed.

Lemma isOfficial_rule (h : string) :
  isOfficial h = true <->
  Substring "/digg-daily-" h /\ ~ Substring "homemade" h /\ ~ Substring "recap" h.
Proof.
  unfold isOfficial. rewrite !andb_true_iff, !negb_true_iff.
  rewrite includes_Substring, !includes_false_iff. tauto.
Qed.

Lemma target_of_link (d : Element) (link : path) (a : Element) (h : string) :
  get link d = Some a -> href a = Some h ->
  target d link = if isOfficial h then container_of d link else None.
Proof. intros Hget Hhref. unfold target, href_or_empty. now rewrite Hget, Hhref. Qed.

(** C7: take an anchor whose address contains the community path and whose
    enclosing container (nearest article, else nearest div) is [c].  The
    pass classifies the anchor as official and leaves its container marked
    if and only if the address contains "/digg-daily-" and neither
    "homemade" nor "recap".  Step by step: an official anchor's container
    carries the marker after the anchor's step; the step of an anchor that
    is not official changes nothing, so a container not marked before is
    marked by the anchor's step exactly when the anchor is official; and a
    container marked after the pass was marked before or is the container
    of some official anchor.  The two addresses of the scenario are
    classified as the spec says. *)
Theorem official_link_marks_container
    (pg : Page) (link : path) (a : Element) (h : string) (c : path) :
  get link (document pg) = Some a -> localName a = "a" -> href a = Some h ->
  Substring "/diggdaily/" h ->
  container_of (document pg) link = Some c ->
  (isOfficial h = true /\
   is_marked (document (snd (highlightOfficialPosts pg))) c = true <->
   Substring "/digg-daily-" h /\ ~ Substring "homemade" h /\ ~ Substring "recap" h) /\
  (isOfficial h = true ->
     is_marked (document (snd (highlightLink link pg))) c = true) /\
  (isOfficial h = false -> highlightLink link pg = (Returned tt, pg)) /\
  (is_marked (document pg) c = false ->
     (is_marked (document (snd (highlightLink link pg))) c = true <-> isOfficial h = true)) /\
  (is_marked (document (snd (highlightOfficialPosts pg))) c = true ->
     is_marked (document pg) c = true \/
     exists link',
       In link' (communityLinks (document pg)) /\
       isOfficial (href_or_empty (document pg) link') = true /\
       container_of (document pg) link' = Some c) /\
  isOfficial "/diggdaily/digg-daily-123" = true /\
  isOfficial "/diggdaily/digg-daily-homemade-5" = false.
Proof.
  intros Hget Htag Hhref Hsub Hcont.
  assert (Hrun : highlightLink link pg
                 = (Returned tt, with_document pg (highlight_one (document pg) link))).
  { apply highlightLink_run. rewrite Hget. eauto. }
  assert (Htarget : target (document pg) link = if isOfficial h then Some c else None).
  { rewrite (target_of_link (document pg) link a h Hget Hhref). now rewrite Hcont. }
  assert (Hoff : isOfficial h = true ->
                 is_marked (document (snd (highlightLink link pg))) c = true).
  { intros Ho. rewrite Hrun. simpl. apply highlight_one_marks. now rewrite Htarget, Ho. }
  assert (Hnot : isOfficial h = false -> highlightLink link pg = (Returned tt, pg)).
  { intros Ho. rewrite Hrun. unfold highlight_one. rewrite Htarget, Ho.
    now rewrite with_document_same. }
  assert (Hpass : isOfficial h = true ->
                  is_marked (document (snd (highlightOfficialPosts pg))) c = true).
  { intros Ho. rewrite highlightOfficialPosts_run. simpl. unfold highlight_all.
    apply (fold_marks _ _ link c).
    - apply (communityLinks_In _ link a h Hget Htag Hhref). now apply includes_Substring.
    - now rewrite Htarget, Ho. }
  split; [|split; [exact Hoff|split; [exact Hnot|split; [|split; [|split; reflexivity]]]]].
  - rewrite <- isOfficial_rule. split; [now intros [Ho _] | intros Ho; split; auto].
  - intros Hbefore. split; [|exact Hoff].
    destruct (isOfficial h) eqn:Ho; [reflexivity|].
    rewrite (Hnot eq_refl). simpl. congruence.
  - rewrite highlightOfficialPosts_run. simpl. unfold highlight_all. intros Hafter.
    apply fold_marks_only in Hafter. destruct Hafter as [Hb | [link' [Hin Ht]]]; [now left|].
    right. exists link'. split; [exact Hin|]. unfold target in Ht.
    destruct (isOfficial (href_or_empty (document pg) link')); [now split | discriminate].
Qed.

(** The official post of the sample page marks its article; the homemade
    recap leaves the page alone. *)
Lemma official_link_marks_container_witness :
  is_marked (document (snd (highlightOfficialPosts Sample.diggPage))) [1; 0; 0]%nat = true /\
  highlightLink [1; 1; 0]%nat Sample.diggPage = (Returned tt, Sample.diggPage).
Proof.
  assert (Hcommunity : forall s, Substring "/diggdaily/" ("/diggdaily/" ++ s)).
  { intros s. exists "", s. reflexivity. }
  destruct (official_link_marks_container Sample.diggPage [1; 0; 0; 0]%nat
              Sample.officialLink "/diggdaily/digg-daily-123" [1; 0; 0]%nat
              eq_refl eq_refl eq_refl (Hcommunity "digg-daily-123") eq_refl)
    as [[_ Hmark] _].
  destruct (official_link_marks_container Sample.diggPage [1; 1; 0]%nat
              Sample.homemadeLink "/diggdaily/digg-daily-homemade-5" [1; 1]%nat
              eq_refl eq_refl eq_refl (Hcommunity "digg-daily-homemade-5") eq_refl)
    as [_ [_ [Hskip _]]].
  split; [|exact (Hskip eq_refl)].
  apply Hmark. apply isOfficial_rule. reflexivity.
Defined.

(** Two anchors under one div: the div is marked on behalf of the official
    post, while the step of the homemade recap leaves the page alone. *)
Example shared_container_marked_by_official_post :
  let pg := with_document Sample.diggPage Sample.sharedDocument in
  marked (document (snd (highlightOfficialPosts pg))) = [[0; 0]%nat] /\
  highlightLink [0; 0; 1]%nat pg = (Returned tt, pg) /\
  is_marked (document (snd (highlightLink [0; 0; 0]%nat pg))) [0; 0]%nat = true.
Proof. repeat split; reflexivity. Qed.

Lemma prefixes_In (p q : path) : In q (prefixes p) <-> q `prefix_of` p.
Proof.
  revert q. induction p as [|i p IH]; intros q; simpl.
  - split.
    + intros [<-|[]]. apply prefix_nil.
    + intros Hq. left. symmetry. now apply prefix_nil_inv.
  - rewrite in_map_iff. split.
    + intros [<-|[q' [<- Hq']]]; [apply prefix_nil|]. apply prefix_cons. now apply IH.
    + intros Hq. destruct q as [|j q]; [now left|]. right.
      pose proof (prefix_cons_inv_1 _ _ _ _ Hq) as ->.
      exists q. split; [reflexivity|]. apply IH. now apply prefix_cons_inv_2 in Hq.
Qed.

Lemma find_all_false {A} (f : A -> bool) (l : list A) :
  (forall x, In x l -> f x = false) -> List.find f l = None.
Proof.
  induction l as [|x l IH]; intros Hf; [reflexivity|]. simpl.
  rewrite (Hf x) by now left. apply IH. intros y Hy. apply Hf. now right.
Qed.

Lemma closest_path_none (d : Element) (link : path) (a : Element) (tag : string) :
  get link d = Some a -> localName a <> tag ->
  (forall q e, q `prefix_of` link -> q <> link -> get q d = Some e -> localName e <> tag) ->
  closest_path d link tag = None.
Proof.
  intros Hget Hself Habove. unfold closest_path. apply find_all_false.
  intros q Hq. unfold ancestors_or_self in Hq. apply in_rev, prefixes_In in Hq.
  unfold test_at, hasTag. destruct (get q d) as [e|] eqn:He; [|reflexivity].
  apply String.eqb_neq. destruct (decide (q = link)) as [->|Hne].
  - rewrite Hget in He. injection He as <-. exact Hself.
  - now apply (Habove q e).
Qed.

Lemma fold_left_skip (links after : list path) (d : Element) (link : path) :
  target d link = None ->
  fold_left highlight_one (links ++ link :: after) d
  = fold_left highlight_one (links ++ after) d.
Proof.
  intros Hnone. rewrite !fold_left_app. simpl.
  rewrite (highlight_one_settled (fold_left highlight_one links d) link); [reflexivity|].
  intros c Hc.
  rewrite <- (target_similar d (fold_left highlight_one links d) link (similar_fold links d))
    in Hc.
  congruence.
Qed.

(** C10: an anchor that satisfies the official-post rule and has no article
    or div above it is skipped.  Its step returns normally and leaves the
    page exactly as it was; the whole pass returns normally and does what
    it does over the other links alone. *)
Theorem link_without_container_is_skipped
    (pg : Page) (link : path) (a : Element) (h : string) :
  get link (document pg) = Some a -> localName a = "a" -> href a = Some h ->
  isOfficial h = true ->
  (forall q e, q `prefix_of` link -> q <> link -> get q (document pg) = Some e ->
               localName e <> "article" /\ localName e <> "div") ->
  highlightLink link pg = (Returned tt, pg) /\
  fst (highlightOfficialPosts pg) = Returned tt /\
  (forall before after,
     communityLinks (document pg) = (before ++ link :: after)%list ->
     highlightOfficialPosts pg = forEach (before ++ after)%list highlightLink pg).
Proof.
  intros Hget Htag Hhref Ho Habove.
  assert (Hnone : target (document pg) link = None).
  { rewrite (target_of_link _ link a h Hget Hhref), Ho. unfold container_of.
    rewrite (closest_path_none _ link a "article" Hget).
    - apply (closest_path_none _ link a "div" Hget); [rewrite Htag; discriminate|].
      intros q e Hq Hne He. now apply (Habove q e).
    - rewrite Htag. discriminate.
    - intros q e Hq Hne He. now apply (Habove q e). }
  split; [|split].
  - rewrite highlightLink_run by (rewrite Hget; eauto).
    unfold highlight_one. now rewrite Hnone, with_document_same.
  - now rewrite highlightOfficialPosts_run.
  - intros before after Hlinks.
    rewrite highlightOfficialPosts_run. unfold highlight_all. rewrite Hlinks.
    rewrite forEach_highlightLink_run.
    + now rewrite (fold_left_skip before after _ link Hnone).
    + intros l Hl. apply communityLinks_valid. rewrite Hlinks.
      apply in_app_or in Hl. apply in_or_app. destruct Hl; [now left | right; now right].
Qed.

(** The official link under a paragraph of the sample page has only p,
    body and html above it. *)
Lemma link_without_container_is_skipped_witness :
  highlightLink [1; 2; 0]%nat Sample.diggPage = (Returned tt, Sample.diggPage).
Proof.
  apply (link_without_container_is_skipped Sample.diggPage [1; 2; 0]%nat
           Sample.officialLink "/diggdaily/digg-daily-123");
    try reflexivity.
  intros q e Hq Hne He.
  assert (Hcases : q = [] \/ q = [1%nat] \/ q = [1; 2]%nat \/ q = [1; 2; 0]%nat).
  { apply prefixes_In in Hq. simpl in Hq. intuition. }
  destruct Hcases as [-> | [-> | [-> | ->]]]; [| | |congruence];
    injection He as <-; split; discriminate.
Defined.

(** ** The host guard *)

(** The guard as the code has it: on a page whose host name does not
    contain "digg.com" the script returns at once and leaves the page as it
    found it; whenever the script does anything to the page, the host name
    contains "digg.com". *)
Theorem contentScript_inert_off_site (pg : Page) :
  (~ Substring "digg.com" (hostname pg) -> contentScript pg = (Returned tt, pg)) /\
  (contentScript pg <> (Returned tt, pg) -> Substring "digg.com" (hostname pg)).
Proof.
  unfold contentScript. destruct (includes "digg.com" (hostname pg)) eqn:Hhost.
  - apply includes_Substring in Hhost. split; [intros Hno; contradiction | intros _; exact Hhost].
  - split; [reflexivity | intros Hacts; now contradiction Hacts].
Qed.

Lemma contentScript_inert_off_site_witness :
  contentScript Sample.otherPage = (Returned tt, Sample.otherPage).
Proof.
  apply (proj1 (contentScript_inert_off_site Sample.otherPage)).
  apply includes_false_iff. reflexivity.
Defined.

Lemma endsWith_append (suffix s : string) :
  endsWith suffix s = true -> exists pre, s = (pre ++ suffix)%string.
Proof.
  induction s as [|c s IH]; cbn [endsWith]; rewrite orb_true_iff.
  - intros [Heq | Hno]; [|discriminate]. apply String.eqb_eq in Heq. subst suffix.
    now exists EmptyString.
  - intros [Heq | Hrest].
    + apply String.eqb_eq in Heq. subst suffix. now exists EmptyString.
    + destruct (IH Hrest) as [pre ->]. now exists (String c pre).
Qed.

(** Every host that matches the domain passes the script's test. *)
Lemma host_match_passes_guard (host : string) :
  host_matches_domain host = true -> includes "digg.com" host = true.
Proof.
  unfold host_matches_domain. rewrite orb_true_iff. intros [Heq | Hsub].
  - apply String.eqb_eq in Heq. now subst host.
  - apply endsWith_append in Hsub. destruct Hsub as [pre ->].
    apply includes_Substring. exists (pre ++ ".")%string, EmptyString.
    induction pre as [|c pre IH]; simpl; [reflexivity | now rewrite IH].
Qed.

(** C9: the code departs from the claim.  The script's test is that the
    host name contains "digg.com", so it lets through every host that
    matches the domain but also hosts that do not: on notdigg.com and on
    digg.com.evil.example, neither of which is digg.com or a name below it,
    the script is not inert; it installs the observer on the body, adds the
    quick-play button and marks the official post. *)
Theorem contentScript_active_on_lookalike_host :
  host_matches_domain (hostname MoreSample.lookalikePage) = false /\
  host_matches_domain (hostname MoreSample.prefixedPage) = false /\
  contentScript MoreSample.lookalikePage <> (Returned tt, MoreSample.lookalikePage) /\
  fst (contentScript MoreSample.lookalikePage) = Returned tt /\
  observers (snd (contentScript MoreSample.lookalikePage)) = [[1%nat]] /\
  has_quick_play (document (snd (contentScript MoreSample.lookalikePage))) = true /\
  marked (document (snd (contentScript MoreSample.lookalikePage))) = [[1; 0; 0]%nat] /\
  observers (snd (contentScript MoreSample.prefixedPage)) = [[1%nat]] /\
  has_quick_play (document (snd (contentScript MoreSample.prefixedPage))) = true /\
  marked (document (snd (contentScript MoreSample.prefixedPage))) = [[1; 0; 0]%nat] /\
  (forall host, host_matches_domain host = true -> includes "digg.com" host = true).
Proof.
  split; [reflexivity|]. split; [reflexivity|]. split.
  - intros Hinert. apply (f_equal (fun r => observers (snd r))) in Hinert.
    vm_compute in Hinert. discriminate.
  - repeat (split; [reflexivity|]). apply host_match_passes_guard.
Qed.

(** On digg.com the script does act: the observer is installed on the body,
    the button is appended to it and the official post is marked. *)
Example contentScript_on_site :
  fst (contentScript Sample.diggPage) = Returned tt /\
  observers (snd (contentScript Sample.diggPage)) = [[1%nat]] /\
  List.find (test_at (document (snd (contentScript Sample.diggPage))) (hasId QUICK_PLAY))
    (paths (document (snd (contentScript Sample.diggPage)))) = Some [1; 3]%nat /\
  marked (document (snd (contentScript Sample.diggPage))) = [[1; 0; 0]%nat].
Proof. repeat split; reflexivity. Qed.

(** ** More on the resolver: failures, the cache as a store, time *)

Lemma byDateDescending_sort_nonempty `{DateApi} (p : RawEpisode) (ps : list RawEpisode) :
  sort byDateDescending (p :: ps) <> [].
Proof. rewrite byDateDescending_descending. apply sort_nonempty. Qed.

Lemma selectLatest_thrown `{DateApi} (eps : list RawEpisode) (e : JsError) :
  selectLatest eps = Thrown e ->
  e = NoPublishedEpisodeError /\ forall r, In r eps -> published_state r <> "PUBLISHED".
Proof.
  unfold selectLatest. destruct (List.filter isPublished eps) as [|p ps] eqn:Hf.
  - intros He. injection He as <-. split; [reflexivity|].
    intros r Hin Hpub. assert (Hr : In r (List.filter isPublished eps)).
    { apply filter_In. split; [exact Hin | now apply isPublished_exact]. }
    rewrite Hf in Hr. exact Hr.
  - destruct (sort byDateDescending (p :: ps)) as [|latest rest] eqn:Hs; [|discriminate].
    now apply byDateDescending_sort_nonempty in Hs.
Qed.

Lemma selectFromPayload_thrown `{DateApi} (data : Payload) (now : Z) (e : JsError) :
  selectFromPayload data now = Thrown e ->
  (e = UpstreamError /\ (episodes data = None \/ episodes data = Some [])) \/
  (e = NoPublishedEpisodeError /\
   exists eps, episodes data = Some eps /\ eps <> [] /\
               forall r, In r eps -> published_state r <> "PUBLISHED").
Proof.
  unfold selectFromPayload, requireEpisodes, select.
  destruct (episodes data) as [[|r eps]|] eqn:Hd.
  - intros He. injection He as <-. left. split; [reflexivity | now right].
  - destruct (selectLatest (r :: eps)) as [latest|e'] eqn:Hsel; [discriminate|].
    intros He. injection He as <-. apply selectLatest_thrown in Hsel.
    destruct Hsel as [-> Hnone]. right. split; [reflexivity|].
    exists (r :: eps). split; [reflexivity|]. split; [discriminate | exact Hnone].
  - intros He. injection He as <-. left. split; [reflexivity | now left].
Qed.

Lemma selectFromPayload_returned `{DateApi} (data : Payload) (now : Z) (episode : Episode) :
  selectFromPayload data now = Returned episode ->
  exists eps latest,
    episodes data = Some eps /\ In latest eps /\ published_state latest = "PUBLISHED" /\
    episode = buildEpisode latest now.
Proof.
  unfold selectFromPayload, requireEpisodes, select.
  destruct (episodes data) as [[|r eps]|] eqn:Hd; try discriminate.
  destruct (selectLatest (r :: eps)) as [latest|e'] eqn:Hsel; [|discriminate].
  intros He. injection He as <-. exists (r :: eps), latest.
  split; [reflexivity|]. unfold selectLatest in Hsel.
  destruct (List.filter isPublished (r :: eps)) as [|p ps] eqn:Hf; [discriminate|].
  destruct (sort byDateDescending (p :: ps)) as [|l rest] eqn:Hs; [discriminate|].
  injection Hsel as ->.
  assert (Hin : In latest (List.filter isPublished (r :: eps))).
  { rewrite Hf. rewrite byDateDescending_descending in Hs.
    apply (sort_In timestamp). rewrite Hs. now left. }
  apply filter_In in Hin. destruct Hin as [Hin Hpub].
  split; [exact Hin|]. split; [now apply isPublished_exact | reflexivity].
Qed.

Lemma fetch_calls_step `{DateApi} (env : Env) (st : Store) :
  fetch_calls (snd (fetchLatestEpisode env st)) = fetch_calls st \/
  fetch_calls (snd (fetchLatestEpisode env st)) = S (fetch_calls st).
Proof.
  destruct (hit_or_miss env st) as [[Hg [c [Hc Hf]]] | Hm].
  - left. now rewrite (fetchLatestEpisode_hit env st c Hg Hc Hf).
  - right. now apply fetchLatestEpisode_miss_calls.
Qed.

(** X1: a resolution that fails has gone to the network exactly once and
    leaves the cache slot as it found it; and the error it raises comes
    from the network side, never from the storage: it is the rejection of
    [fetch], the "API request failed" error with the response's status, the
    error of [response.json()], or the error with which the selection over
    the parsed document fails. *)
Theorem failed_resolution_keeps_cache `{DateApi} (env : Env) (st : Store) (e : JsError) :
  fst (fetchLatestEpisode env st) = Thrown e ->
  slot (snd (fetchLatestEpisode env st)) = slot st /\
  network_calls env st = 1%nat /\
  (fetch_result env = Thrown e \/
   exists response,
     fetch_result env = Returned response /\
     ((ok response = false /\
       e = Error ("API request failed: " ++ number_to_string (status response))) \/
      (ok response = true /\ json response = Thrown e) \/
      (ok response = true /\ exists data,
         json response = Returned data /\
         selectFromPayload data (now_build env) = Thrown e))).
Proof.
  intros Hthrown. destruct (hit_or_miss env st) as [[Hg [c [Hc Hf]]] | Hm].
  { rewrite (fetchLatestEpisode_hit env st c Hg Hc Hf) in Hthrown. discriminate. }
  unfold network_calls. rewrite (fetchLatestEpisode_miss_calls env st Hm).
  rewrite (fetchLatestEpisode_miss env st Hm) in Hthrown |- *. simpl in Hthrown |- *.
  destruct (fetch_result env) as [response|e0] eqn:Hfetch.
  - destruct (ok response) eqn:Hok.
    + destruct (json response) as [data|e1] eqn:Hjson.
      * destruct (selectFromPayload data (now_build env)) as [episode|e2] eqn:Hsel;
          [discriminate|].
        simpl in Hthrown. injection Hthrown as <-.
        split; [reflexivity|]. split; [lia|]. right. exists response.
        split; [reflexivity|]. right. right. split; [exact Hok|].
        exists data. split; [exact Hjson | exact Hsel].
      * simpl in Hthrown. injection Hthrown as <-.
        split; [reflexivity|]. split; [lia|]. right. exists response.
        split; [reflexivity|]. right. left. split; assumption.
    + simpl in Hthrown. injection Hthrown as <-.
      split; [reflexivity|]. split; [lia|]. right. exists response.
      split; [reflexivity|]. left. split; [exact Hok | reflexivity].
  - simpl in Hthrown. injection Hthrown as <-.
    split; [reflexivity|]. split; [lia|]. now left.
Qed.

Lemma failed_resolution_keeps_cache_witness :
  slot (snd (fetchLatestEpisode
               {| get_fault := None; set_fault := None; remove_fault := None;
                  fetch_result := Returned Sample.emptyResponse;
                  now_read := 31 * Sample.minute; now_build := 31 * Sample.minute |}
               Sample.warm))
  = Some Sample.cachedAtZero.
Proof.
  apply (failed_resolution_keeps_cache
           {| get_fault := None; set_fault := None; remove_fault := None;
              fetch_result := Returned Sample.emptyResponse;
              now_read := 31 * Sample.minute; now_build := 31 * Sample.minute |}
           Sample.warm UpstreamError).
  reflexivity.
Defined.

Lemma fetch_succeeds_stamp `{DateApi} (env : Env) (episode : Episode) :
  fetch_succeeds env episode -> fetchedAt episode = now_build env.
Proof.
  intros [response [data [_ [_ [_ Hsel]]]]].
  apply selectFromPayload_returned in Hsel.
  destruct Hsel as [eps [latest [_ [_ [_ ->]]]]]. reflexivity.
Qed.

(** X2: a record fetched and stored by one resolution is what a later
    resolution returns, without any network call and without touching the
    store, as long as the later clock reading is less than 30 minutes past
    the moment the record was built and the storage read works; from 30
    minutes on the later resolution goes to the network again. *)
Theorem resolved_record_is_served_from_cache `{DateApi}
    (env later : Env) (st : Store) (episode : Episode) :
  get_fault env <> None \/ no_valid_entry (now_read env) st ->
  fetch_succeeds env episode ->
  set_fault env = None ->
  get_fault later = None ->
  (now_read later - now_build env < CACHE_DURATION_MS ->
     fetchLatestEpisode later (snd (fetchLatestEpisode env st))
     = (Returned episode, snd (fetchLatestEpisode env st))) /\
  (now_read later - now_build env >= CACHE_DURATION_MS ->
     network_calls later (snd (fetchLatestEpisode env st)) = 1%nat).
Proof.
  intros Hmiss Hok Hset Hget.
  rewrite (fetchLatestEpisode_miss_success env st episode Hmiss Hok), Hset. simpl.
  pose proof (fetch_succeeds_stamp env episode Hok) as Hstamp. split.
  - intros Hyoung. apply fetchLatestEpisode_hit; [exact Hget | reflexivity|].
    unfold fresh. now rewrite Hstamp.
  - intros Hold. unfold network_calls. rewrite fetchLatestEpisode_miss_calls; [simpl; lia|].
    right. right. exists episode. split; [reflexivity | now rewrite Hstamp].
Qed.

Lemma resolved_record_is_served_from_cache_witness :
  fetchLatestEpisode (Sample.calm (29 * Sample.minute))
    (snd (fetchLatestEpisode (Sample.calm 0) Sample.cold))
  = (Returned Sample.cachedAtZero, snd (fetchLatestEpisode (Sample.calm 0) Sample.cold)).
Proof.
  apply (resolved_record_is_served_from_cache (Sample.calm 0)
           (Sample.calm (29 * Sample.minute)) Sample.cold Sample.cachedAtZero).
  - right. now left.
  - exists Sample.goodResponse, {| episodes := Some Sample.feed |}. repeat split; reflexivity.
  - reflexivity.
  - reflexivity.
  - reflexivity.
Defined.

(** X3: [getCachedEpisode] hands back a record exactly when the storage
    read works, a record is stored and the clock reads less than its stamp
    plus 1 800 000 ms, so a record stamped in the future is valid until
    the clock passes that point; validity is lost for good as time moves on:
    a record valid at a later reading was valid at every earlier one; and
    the function never writes: an expired record stays in the slot. *)
Theorem cached_record_validity `{DateApi} (env : Env) (st : Store) :
  (forall c,
     fst (getCachedEpisode env st) = Returned (Some c) <->
     get_fault env = None /\ slot st = Some c /\ now_read env < fetchedAt c + 1800000) /\
  (forall now now' c,
     now <= now' ->
     fst (getCachedEpisode (at_time env now') st) = Returned (Some c) ->
     fst (getCachedEpisode (at_time env now) st) = Returned (Some c)) /\
  snd (getCachedEpisode env st) = st.
Proof.
  assert (Hchar : forall env0 c,
            fst (getCachedEpisode env0 st) = Returned (Some c) <->
            get_fault env0 = None /\ slot st = Some c /\
            now_read env0 < fetchedAt c + 1800000).
  { intros env0 c. rewrite getCachedEpisode_cases. simpl.
    destruct (get_fault env0) as [e|].
    - split; [discriminate | intros [Hf _]; discriminate].
    - destruct (slot st) as [c0|].
      + destruct (now_read env0 - fetchedAt c0 <? CACHE_DURATION_MS) eqn:Hage.
        * apply Z.ltb_lt in Hage. unfold CACHE_DURATION_MS in Hage. split.
          -- intros Hc. injection Hc as <-. split; [reflexivity|]. split; [reflexivity | lia].
          -- intros [_ [Hc _]]. injection Hc as <-. reflexivity.
        * apply Z.ltb_ge in Hage. unfold CACHE_DURATION_MS in Hage. split.
          -- discriminate.
          -- intros [_ [Hc Hlt]]. injection Hc as <-. lia.
      + split; [discriminate | intros [_ [Hc _]]; discriminate]. }
  split; [apply Hchar|]. split.
  - intros now now' c Hle Hlater. apply Hchar in Hlater. apply Hchar.
    simpl in Hlater |- *. destruct Hlater as [Hg [Hs Hlt]]. repeat split; try assumption. lia.
  - now rewrite getCachedEpisode_cases.
Qed.

Lemma cached_record_validity_witness :
  fst (getCachedEpisode (at_time (Sample.calm 0) (10 * Sample.minute)) Sample.warm)
  = Returned (Some Sample.cachedAtZero).
Proof.
  destruct (cached_record_validity (Sample.calm 0) Sample.warm) as [_ [Hmono _]].
  apply (Hmono (10 * Sample.minute) (29 * Sample.minute) Sample.cachedAtZero).
  - vm_compute. discriminate.
  - reflexivity.
Defined.

(** X4: the cache is a single slot.  A record written with a working
    storage is read back while it is fresh and only then; of two writes the
    later one wins; after a successful clear nothing is read back; and
    neither writing nor clearing issues a network call. *)
Theorem cache_is_a_single_slot `{DateApi}
    (env reader : Env) (st : Store) (a b : Episode) :
  set_fault env = None -> remove_fault env = None -> get_fault reader = None ->
  (fst (getCachedEpisode reader (snd (cacheEpisode env a st))) = Returned (Some a) <->
   fresh (now_read reader) a) /\
  (~ fresh (now_read reader) a ->
   fst (getCachedEpisode reader (snd (cacheEpisode env a st))) = Returned None) /\
  snd (cacheEpisode env b (snd (cacheEpisode env a st))) = snd (cacheEpisode env b st) /\
  fst (getCachedEpisode reader (snd (clearCache env (snd (cacheEpisode env a st)))))
    = Returned None /\
  fetch_calls (snd (cacheEpisode env a st)) = fetch_calls st /\
  fetch_calls (snd (clearCache env st)) = fetch_calls st.
Proof.
  intros Hset Hrm Hget.
  rewrite !cacheEpisode_cases, !clearCache_cases, !getCachedEpisode_cases.
  rewrite Hset, Hrm, Hget. simpl. unfold fresh.
  destruct (now_read reader - fetchedAt a <? CACHE_DURATION_MS) eqn:Hage.
  - apply Z.ltb_lt in Hage.
    split; [split; [intros _; exact Hage | reflexivity]|].
    split; [intros Hno; contradiction|].
    repeat split; reflexivity.
  - apply Z.ltb_ge in Hage.
    split; [split; [discriminate | intros Hlt; lia]|].
    split; [reflexivity|].
    repeat split; reflexivity.
Qed.

Lemma cache_is_a_single_slot_witness :
  fst (getCachedEpisode (Sample.calm (29 * Sample.minute))
         (snd (cacheEpisode (Sample.calm 0) Sample.cachedAtZero Sample.cold)))
  = Returned (Some Sample.cachedAtZero).
Proof.
  destruct (cache_is_a_single_slot (Sample.calm 0) (Sample.calm (29 * Sample.minute))
              Sample.cold Sample.cachedAtZero Sample.cachedAtZero
              eq_refl eq_refl eq_refl) as [Hread _].
  apply Hread. vm_compute. reflexivity.
Defined.

(** ** More on the selection: ties, order of the collection, the date *)

Section SortOrder.
Context {A : Type} (key : A -> option Z).

(** With every key defined, the element that sorts first is the first, in
    the order of the list, among those with the greatest key. *)
Lemma sort_head_first_greatest (l : list A) (h : A) (rest : list A) :
  (forall x, In x l -> key x <> None) ->
  sort (descending key) l = h :: rest ->
  exists t l1 l2,
    key h = Some t /\ l = (l1 ++ h :: l2)%list /\
    (forall x u, In x l1 -> key x = Some u -> u < t) /\
    (forall x u, In x l2 -> key x = Some u -> u <= t).
Proof.
  revert h rest. induction l as [|x l IH]; intros h rest Hdef Hsort; [discriminate|].
  unfold sort in Hsort. simpl in Hsort. fold (sort (descending key) l) in Hsort.
  destruct (key x) as [t|] eqn:Hx; [|exfalso; apply (Hdef x); simpl; auto].
  destruct (sort (descending key) l) as [|h' rest'] eqn:Hs.
  - simpl in Hsort. injection Hsort as <- <-.
    assert (Hl : l = []).
    { destruct l as [|z l]; [reflexivity|]. now apply sort_nonempty in Hs. }
    subst l. exists t, [], []. repeat split; try assumption; intros y u [].
  - destruct (IH h' rest') as [t' [l1 [l2 [Hh' [Hl [Hbefore Hafter]]]]]];
      [intros z Hz; apply Hdef; now right | reflexivity |].
    simpl in Hsort. unfold descending in Hsort. rewrite Hh', Hx in Hsort. simpl in Hsort.
    destruct (t' - t <=? 0) eqn:Hcmp.
    + injection Hsort as <- <-. apply Z.leb_le in Hcmp.
      exists t, [], l. split; [exact Hx|]. split; [reflexivity|]. split; [intros y u []|].
      intros y u Hy Hu. rewrite Hl in Hy. apply in_app_or in Hy.
      destruct Hy as [Hy | [<- | Hy]].
      * specialize (Hbefore y u Hy Hu). lia.
      * rewrite Hh' in Hu. injection Hu as <-. lia.
      * specialize (Hafter y u Hy Hu). lia.
    + injection Hsort as <- <-. apply Z.leb_gt in Hcmp.
      exists t', (x :: l1), l2. split; [exact Hh'|]. split; [now rewrite Hl|].
      split; [|exact Hafter].
      intros y u [<- | Hy] Hu.
      * rewrite Hx in Hu. injection Hu as <-. lia.
      * exact (Hbefore y u Hy Hu).
Qed.

End SortOrder.

Lemma filter_isPublished_In (eps : list RawEpisode) (r : RawEpisode) :
  In r (List.filter isPublished eps) <-> In r eps /\ published_state r = "PUBLISHED".
Proof. rewrite filter_In, isPublished_exact. reflexivity. Qed.

Lemma selectLatest_returned_sorted `{DateApi} (eps : list RawEpisode) (latest : RawEpisode) :
  selectLatest eps = Returned latest ->
  exists rest, sort (descending timestamp) (List.filter isPublished eps) = latest :: rest.
Proof.
  unfold selectLatest. destruct (List.filter isPublished eps) as [|p ps]; [discriminate|].
  rewrite byDateDescending_descending.
  destruct (sort (descending timestamp) (p :: ps)) as [|l rest]; [discriminate|].
  intros Hl. injection Hl as ->. now exists rest.
Qed.

(** X5: with valid dates on the published records, the record selected is
    the first one, in the order of the collection, among the published
    records with the greatest timestamp: every published record before it
    is strictly older, every one after it is no newer. *)
Theorem selectLatest_first_of_newest `{DateApi} (eps : list RawEpisode) (latest : RawEpisode) :
  (forall r, In r eps -> published_state r = "PUBLISHED" -> timestamp r <> None) ->
  selectLatest eps = Returned latest ->
  exists t before after,
    timestamp latest = Some t /\
    List.filter isPublished eps = (before ++ latest :: after)%list /\
    (forall r u, In r before -> timestamp r = Some u -> u < t) /\
    (forall r u, In r after -> timestamp r = Some u -> u <= t).
Proof.
  intros Hdef Hsel. apply selectLatest_returned_sorted in Hsel. destruct Hsel as [rest Hs].
  apply (sort_head_first_greatest timestamp (List.filter isPublished eps) latest rest);
    [|exact Hs].
  intros r Hr. apply filter_isPublished_In in Hr. destruct Hr. now apply Hdef.
Qed.

Lemma selectLatest_first_of_newest_witness :
  exists t before after,
    timestamp Sample.published40 = Some t /\
    List.filter isPublished (Sample.draft41 :: Sample.feed)
      = (before ++ Sample.published40 :: after)%list /\
    (forall r u, In r before -> timestamp r = Some u -> u < t) /\
    (forall r u, In r after -> timestamp r = Some u -> u <= t).
Proof.
  apply (selectLatest_first_of_newest (Sample.draft41 :: Sample.feed) Sample.published40).
  - intros r [<-|[<-|[<-|[]]]] Hp; discriminate.
  - reflexivity.
Defined.

(** X6: the order in which the API lists the episodes does not matter when
    the published records carry valid, pairwise different timestamps: two
    collections that are permutations of each other select the same record
    or fail alike. *)
Theorem selectLatest_order_independent `{DateApi} (eps eps' : list RawEpisode) :
  Permutation eps eps' ->
  (forall r, In r eps -> published_state r = "PUBLISHED" -> timestamp r <> None) ->
  (forall r r', In r eps -> In r' eps ->
                published_state r = "PUBLISHED" -> published_state r' = "PUBLISHED" ->
                timestamp r = timestamp r' -> r = r') ->
  selectLatest eps = selectLatest eps'.
Proof.
  intros Hperm Hdef Hinj.
  assert (Hdef' : forall r, In r eps' -> published_state r = "PUBLISHED" ->
                            timestamp r <> None).
  { intros r Hr. apply Hdef. now apply (Permutation_in r (Permutation_sym Hperm)). }
  assert (Hmax : forall l latest,
            (forall r, In r l -> published_state r = "PUBLISHED" -> timestamp r <> None) ->
            selectLatest l = Returned latest ->
            In latest l /\ published_state latest = "PUBLISHED" /\
            exists t, timestamp latest = Some t /\
              forall r u, In r l -> published_state r = "PUBLISHED" ->
                          timestamp r = Some u -> u <= t).
  { intros l latest Hd Hsel. apply selectLatest_returned_sorted in Hsel.
    destruct Hsel as [rest Hs].
    assert (Hin : In latest (List.filter isPublished l)).
    { apply (sort_In timestamp). rewrite Hs. now left. }
    apply filter_isPublished_In in Hin. destruct Hin as [Hin Hpub].
    split; [exact Hin|]. split; [exact Hpub|].
    destruct (sort_head_greatest timestamp (List.filter isPublished l) latest rest)
      as [t [Ht Hle]]; [|exact Hs|].
    - intros r Hr. apply filter_isPublished_In in Hr. destruct Hr. now apply Hd.
    - exists t. split; [exact Ht|]. intros r u Hr Hp. apply Hle.
      now apply filter_isPublished_In. }
  destruct (selectLatest eps) as [a|e] eqn:Ha, (selectLatest eps') as [b|e'] eqn:Hb.
  - destruct (Hmax eps a Hdef Ha) as [Hina [Hpa [ta [Hta Hlea]]]].
    destruct (Hmax eps' b Hdef' Hb) as [Hinb [Hpb [tb [Htb Hleb]]]].
    assert (Hinb' : In b eps) by now apply (Permutation_in b (Permutation_sym Hperm)).
    assert (Hina' : In a eps') by now apply (Permutation_in a Hperm).
    f_equal. apply Hinj; try assumption.
    rewrite Hta, Htb. f_equal.
    pose proof (Hlea b tb Hinb' Hpb Htb). pose proof (Hleb a ta Hina' Hpa Hta). lia.
  - exfalso. apply selectLatest_thrown in Hb. destruct Hb as [_ Hnone].
    destruct (Hmax eps a Hdef Ha) as [Hina [Hpa _]].
    apply (Hnone a); [now apply (Permutation_in a Hperm) | exact Hpa].
  - exfalso. apply selectLatest_thrown in Ha. destruct Ha as [_ Hnone].
    destruct (Hmax eps' b Hdef' Hb) as [Hinb [Hpb _]].
    apply (Hnone b); [now apply (Permutation_in b (Permutation_sym Hperm)) | exact Hpb].
  - apply selectLatest_thrown in Ha, Hb. destruct Ha as [-> _], Hb as [-> _]. reflexivity.
Qed.

Lemma selectLatest_order_independent_witness :
  selectLatest Sample.feed = selectLatest [Sample.draft41; Sample.published40].
Proof.
  apply (selectLatest_order_independent Sample.feed [Sample.draft41; Sample.published40]).
  - apply perm_swap.
  - intros r [<-|[<-|[]]] Hp; discriminate.
  - intros r r' [<-|[<-|[]]] [<-|[<-|[]]] Hp Hp' Ht; try reflexivity; discriminate.
Defined.

Lemma append_empty (s : string) : (s ++ EmptyString)%string = s.
Proof. induction s as [|c s IH]; simpl; [reflexivity | now rewrite IH]. Qed.

Lemma split_head_spec (sep : ascii) (s : string) :
  exists rest,
    s = (split_head sep s ++ rest)%string /\
    includes (String sep EmptyString) (split_head sep s) = false /\
    (rest = EmptyString \/ exists r, rest = String sep r).
Proof.
  induction s as [|c s IH]; simpl.
  - exists EmptyString. repeat split; auto.
  - destruct (Ascii.eqb_spec c sep) as [->|Hne].
    + exists (String sep s). repeat split; eauto.
    + destruct IH as [rest [Hs [Hno Hrest]]]. exists rest. split; [|split].
      * simpl. now rewrite <- Hs.
      * cbn [includes startsWith]. rewrite Hno.
        destruct (Ascii.eqb_spec sep c) as [->|_]; [contradiction | reflexivity].
      * exact Hrest.
Qed.

(** X7: the [date] of the record built for a raw episode is the text of
    its [published_date] up to the first "T": it contains no "T", and what
    follows it in [published_date] is nothing or begins with "T".  In
    particular a date without "T" is kept whole and the time of an ISO
    timestamp is dropped. *)
Theorem episode_date_is_before_T `{DateApi} (latest : RawEpisode) (now : Z) :
  (exists rest,
     published_date latest = (date (buildEpisode latest now) ++ rest)%string /\
     ~ Substring "T" (date (buildEpisode latest now)) /\
     (rest = EmptyString \/ exists r, rest = ("T" ++ r)%string)) /\
  (~ Substring "T" (published_date latest) ->
     date (buildEpisode latest now) = published_date latest) /\
  (forall day time, ~ Substring "T" day ->
     published_date latest = (day ++ "T" ++ time)%string ->
     date (buildEpisode latest now) = day).
Proof.
  assert (Hgen : forall day time, includes "T" day = false ->
                   split_head "T" (day ++ String "T" time) = day).
  { induction day as [|c day IH]; intros time Hno; [reflexivity|].
    cbn [includes startsWith] in Hno. simpl.
    destruct (Ascii.eqb_spec c "T") as [->|Hne].
    - destruct (Ascii.eqb_spec "T" "T"); [discriminate | contradiction].
    - f_equal. apply IH. apply orb_false_elim in Hno. tauto. }
  simpl. destruct (split_head_spec "T" (published_date latest)) as [rest [Hs [Hno Hrest]]].
  split; [|split].
  - exists rest. split; [exact Hs|]. split; [now apply includes_false_iff | exact Hrest].
  - intros HnoT. destruct Hrest as [-> | [r ->]].
    + rewrite Hs at 2. now rewrite append_empty.
    + exfalso. apply HnoT. exists (split_head "T" (published_date latest)), r. exact Hs.
  - intros day time Hday ->. apply Hgen. now apply includes_false_iff.
Qed.

Lemma episode_date_is_before_T_witness :
  date (buildEpisode
          {| episode_id := "7"; file_name := "ep40.mp3";
             published_date := "2024-03-01T09:30:00Z";
             published_state := "PUBLISHED"; episode_number := 40 |} 0)
  = "2024-03-01".
Proof.
  destruct (episode_date_is_before_T
              {| episode_id := "7"; file_name := "ep40.mp3";
                 published_date := "2024-03-01T09:30:00Z";
                 published_state := "PUBLISHED"; episode_number := 40 |} 0)
    as [_ [_ Hiso]].
  apply (Hiso "2024-03-01" "09:30:00Z"); [|reflexivity].
  apply includes_false_iff. reflexivity.
Defined.

(** ** What the popup shows *)

Lemma onRefreshClick_unfold `{DateApi} {L : PopupView.LongDate} (env : Env)
    (s : Store * PopupView.Dom) :
  PopupView.onRefreshClick env s =
  PopupView.loadEpisode env
    (match remove_fault env with None => emptied (fst s) | Some _ => fst s end,
     PopupView.showLoading (snd s)).
Proof. unfold PopupView.onRefreshClick. now rewrite clearCache_cases. Qed.

Lemma loadEpisode_panel `{DateApi} {L : PopupView.LongDate} (env : Env)
    (s : Store * PopupView.Dom) :
  PopupView.visible (snd (PopupView.loadEpisode env s)) = [PopupView.PlayerPanel] \/
  PopupView.visible (snd (PopupView.loadEpisode env s)) = [PopupView.ErrorPanel].
Proof.
  unfold PopupView.loadEpisode.
  destruct (fetchLatestEpisode env (fst s)) as [[episode|e] st']; [now left | now right].
Qed.

(** X8: whatever the popup showed before, once [loadEpisode] has run
    exactly one panel is visible.  If the resolution returned a record it is
    the player, showing the record's title and formatted date, with the
    audio element and the download link on the record's audio address and
    the page link on its page address, the error text left as it was; if
    the resolution threw it is the error panel with the error's message,
    the player's contents left as they were.  The same holds after a click
    on refresh, which never ends on the loading panel. *)
Theorem popup_shows_player_or_error `{DateApi} {L : PopupView.LongDate}
    (env : Env) (s : Store * PopupView.Dom) :
  let s' := PopupView.loadEpisode env s in
  fst s' = snd (fetchLatestEpisode env (fst s)) /\
  (forall episode,
     fst (fetchLatestEpisode env (fst s)) = Returned episode ->
     PopupView.visible (snd s') = [PopupView.PlayerPanel] /\
     PopupView.episode_title (snd s') = title episode /\
     PopupView.episode_date (snd s') = PopupView.formatDate (date episode) /\
     PopupView.audio_src (snd s') = audioUrl episode /\
     PopupView.download_link (snd s') = audioUrl episode /\
     PopupView.digg_link (snd s') = diggUrl episode /\
     PopupView.error_message (snd s') = PopupView.error_message (snd s)) /\
  (forall e,
     fst (fetchLatestEpisode env (fst s)) = Thrown e ->
     PopupView.visible (snd s') = [PopupView.ErrorPanel] /\
     PopupView.error_message (snd s') = message e /\
     PopupView.episode_title (snd s') = PopupView.episode_title (snd s) /\
     PopupView.audio_src (snd s') = PopupView.audio_src (snd s)) /\
  (PopupView.visible (snd (PopupView.onRefreshClick env s)) = [PopupView.PlayerPanel] \/
   PopupView.visible (snd (PopupView.onRefreshClick env s)) = [PopupView.ErrorPanel]).
Proof.
  simpl. split; [|split; [|split]].
  - unfold PopupView.loadEpisode.
    destruct (fetchLatestEpisode env (fst s)) as [[episode|e] st']; reflexivity.
  - intros episode Hret. unfold PopupView.loadEpisode.
    destruct (fetchLatestEpisode env (fst s)) as [o st']. simpl in Hret. subst o.
    repeat split; reflexivity.
  - intros e Hthrown. unfold PopupView.loadEpisode.
    destruct (fetchLatestEpisode env (fst s)) as [o st']. simpl in Hthrown. subst o.
    repeat split; reflexivity.
  - rewrite onRefreshClick_unfold. apply loadEpisode_panel.
Qed.

Lemma fetch_calls_loadEpisode `{DateApi} {L : PopupView.LongDate} (env : Env)
    (s : Store * PopupView.Dom) :
  (fetch_calls (fst s) <= fetch_calls (fst (PopupView.loadEpisode env s)) <=
   S (fetch_calls (fst s)))%nat.
Proof.
  unfold PopupView.loadEpisode. pose proof (fetch_calls_step env (fst s)) as Hstep.
  destruct (fetchLatestEpisode env (fst s)) as [[episode|e] st']; simpl in *; lia.
Qed.

Lemma fetch_calls_onRefreshClick `{DateApi} {L : PopupView.LongDate} (env : Env)
    (s : Store * PopupView.Dom) :
  (fetch_calls (fst s) <= fetch_calls (fst (PopupView.onRefreshClick env s)) <=
   S (fetch_calls (fst s)))%nat.
Proof.
  rewrite onRefreshClick_unfold.
  match goal with |- context [PopupView.loadEpisode env ?x] =>
    pose proof (fetch_calls_loadEpisode env x) as Hstep end.
  simpl in Hstep. destruct (remove_fault env); simpl in Hstep; exact Hstep.
Qed.

Lemma clicks_calls `{DateApi} {L : PopupView.LongDate} (envs : list Env)
    (s : Store * PopupView.Dom) :
  (fetch_calls (fst s) <= fetch_calls (fst (PopupView.clicks envs s)) <=
   fetch_calls (fst s) + length envs)%nat.
Proof.
  revert s. induction envs as [|env envs IH]; intros s; simpl; [lia|].
  specialize (IH (PopupView.onRefreshClick env s)).
  pose proof (fetch_calls_onRefreshClick env s). lia.
Qed.

Lemma clicks_panel `{DateApi} {L : PopupView.LongDate} (envs : list Env)
    (s : Store * PopupView.Dom) :
  PopupView.visible (snd s) = [PopupView.PlayerPanel] \/
  PopupView.visible (snd s) = [PopupView.ErrorPanel] ->
  PopupView.visible (snd (PopupView.clicks envs s)) = [PopupView.PlayerPanel] \/
  PopupView.visible (snd (PopupView.clicks envs s)) = [PopupView.ErrorPanel].
Proof.
  revert s. induction envs as [|env envs IH]; intros s Hs; simpl; [exact Hs|].
  apply IH. rewrite onRefreshClick_unfold. apply loadEpisode_panel.
Qed.

(** X9: over a whole popup session (the popup opens, then any number of
    clicks on refresh, each action meeting its own storage and network
    outcomes) the popup issues at most one network call per action and
    never fewer than none, so there is no retry and no polling; the session
    ends on the player or on the error panel, never on the loading panel;
    and when every clear succeeds it issues exactly one call per click. *)
Theorem session_one_call_per_action `{DateApi} {L : PopupView.LongDate}
    (first : Env) (envs : list Env) (s : Store * PopupView.Dom) :
  (fetch_calls (fst s) <= fetch_calls (fst (PopupView.session first envs s)) <=
   fetch_calls (fst s) + 1 + length envs)%nat /\
  (PopupView.visible (snd (PopupView.session first envs s)) = [PopupView.PlayerPanel] \/
   PopupView.visible (snd (PopupView.session first envs s)) = [PopupView.ErrorPanel]) /\
  (Forall (fun env => remove_fault env = None) envs ->
   fetch_calls (fst (PopupView.session first envs s))
   = (fetch_calls (fst (PopupView.init first s)) + length envs)%nat).
Proof.
  unfold PopupView.session, PopupView.init. split; [|split].
  - pose proof (clicks_calls envs (PopupView.loadEpisode first s)).
    pose proof (fetch_calls_loadEpisode first s). lia.
  - apply clicks_panel. apply loadEpisode_panel.
  - generalize (PopupView.loadEpisode first s). intros s0 Hall. revert s0.
    induction Hall as [|env envs Hrm Hall IH]; intros s0; simpl; [lia|].
    rewrite IH. rewrite onRefreshClick_unfold, Hrm.
    unfold PopupView.loadEpisode.
    pose proof (fetchLatestEpisode_miss_calls env (emptied (fst s0))) as Hcall.
    simpl in Hcall |- *.
    destruct (fetchLatestEpisode env (emptied (fst s0))) as [[episode|e] st'];
      simpl in Hcall |- *; rewrite Hcall; try lia;
      right; unfold no_valid_entry; left; reflexivity.
Qed.

Lemma session_one_call_per_action_witness :
  fetch_calls (fst (PopupView.session (L := MoreSample.plainLongDate)
                      (Sample.calm 0) [Sample.calm 1; Sample.calm 2]
                      (Sample.warm, MoreSample.openingDom)))
  = 2%nat.
Proof.
  apply (session_one_call_per_action (L := MoreSample.plainLongDate)
           (Sample.calm 0) [Sample.calm 1; Sample.calm 2]).
  repeat constructor.
Defined.

(** ** The quick-play button *)

Lemma get_app (p q : path) (d : Element) :
  get (p ++ q)%list d = match get p d with Some e => get q e | None => None end.
Proof.
  revert d. induction p as [|i p IH]; intros d; [reflexivity|]. simpl.
  destruct (children d !! i) as [c|]; [apply IH | reflexivity].
Qed.

Lemma prefix_valid (d : Element) (link q : path) :
  is_Some (get link d) -> q `prefix_of` link -> is_Some (get q d).
Proof.
  intros [e He] [k ->]. rewrite get_app in He.
  destruct (get q d) as [x|]; [eauto | discriminate].
Qed.

Lemma find_exists {A} (f : A -> bool) (l : list A) (x : A) :
  In x l -> f x = true -> exists y, List.find f l = Some y.
Proof.
  intros Hin Hfx. destruct (List.find f l) as [y|] eqn:Hfind; [eauto|].
  pose proof (find_none f l Hfind x Hin). congruence.
Qed.

Lemma index_where_Some {A} (f : A -> bool) (l : list A) (i : nat) :
  index_where f l = Some i -> exists x, l !! i = Some x /\ f x = true.
Proof.
  revert i. induction l as [|y l IH]; intros i; simpl; [discriminate|].
  destruct (f y) eqn:Hy.
  - intros Hi. injection Hi as <-. exists y. now split.
  - destruct (index_where f l) as [j|]; [|discriminate]. simpl.
    intros Hi. injection Hi as <-. now apply IH.
Qed.

Lemma body_of_valid (d : Element) (b : path) :
  body_of d = Some b -> is_Some (get b d).
Proof.
  unfold body_of. destruct (String.eqb (localName d) "html"); [|discriminate].
  destruct (index_where _ (children d)) as [i|] eqn:Hi; [|discriminate].
  simpl. intros Hb. injection Hb as <-. apply index_where_Some in Hi.
  destruct Hi as [x [Hx _]]. simpl. rewrite Hx. eauto.
Qed.

Lemma document_body_run (pg : Page) :
  document_body pg = (Returned (body_of (document pg)), pg).
Proof. reflexivity. Qed.

(** What [addQuickPlayButton] does, case by case. *)
Lemma addQuickPlayButton_cases (pg : Page) :
  addQuickPlayButton pg =
  if has_quick_play (document pg) then (Returned tt, pg)
  else match body_of (document pg) with
       | Some b =>
           (Returned tt,
            with_document pg (alter_at (appendTo quickPlayButton) b (document pg)))
       | None => (Thrown TypeError, pg)
       end.
Proof.
  unfold addQuickPlayButton, bind at 1. unfold getElementById, has_quick_play.
  destruct (List.find _ (paths (document pg))) as [q|]; [reflexivity|].
  unfold bind. rewrite document_body_run.
  destruct (body_of (document pg)) as [b|] eqn:Hb; [|reflexivity].
  destruct (body_of_valid _ b Hb) as [e He].
  unfold appendChild, on_element. now rewrite He.
Qed.

(** A node appended to the element at [b] is that element's last child. *)
Lemma get_appended (child : Element) (b : path) (d e : Element) :
  get b d = Some e ->
  get (b ++ [length (children e)])%list (alter_at (appendTo child) b d) = Some child.
Proof.
  intros He. rewrite get_app, get_alter_at_self, He. simpl.
  destruct e as [t i h cl ch]. simpl.
  rewrite lookup_app_r by lia. now rewrite Nat.sub_diag.
Qed.

(** Appending a child leaves every node that was there in its place, with
    its attributes and its classes. *)
Lemma get_after_append (child : Element) (b q : path) (d e : Element) :
  get q d = Some e ->
  exists e', get q (alter_at (appendTo child) b d) = Some e' /\
             attrs e' = attrs e /\ classList e' = classList e.
Proof.
  revert d q. induction b as [|i b IH]; intros d q Hq.
  - destruct q as [|j q].
    + simpl in Hq. injection Hq as <-. exists (appendTo child d).
      destruct d. repeat split; reflexivity.
    + exists e. split; [|split; reflexivity]. simpl in Hq |- *.
      destruct d as [t i' h cl ch]. simpl in Hq |- *.
      destruct (ch !! j) as [c|] eqn:Hj; [|discriminate].
      now rewrite (lookup_app_l_Some _ _ _ _ Hj).
  - destruct d as [t i' h cl ch]. destruct q as [|j q].
    + simpl in Hq. injection Hq as <-. eexists. split; [reflexivity|]. split; reflexivity.
    + simpl in Hq |- *. destruct (decide (i = j)) as [->|Hne].
      * rewrite list_lookup_alter_eq. destruct (ch !! j) as [c|]; [|discriminate]. simpl.
        now apply IH.
      * rewrite list_lookup_alter_ne by exact Hne.
        destruct (ch !! j) as [c|]; [|discriminate]. exists e. now repeat split.
Qed.

Lemma has_quick_play_after_append (b : path) (d : Element) :
  is_Some (get b d) ->
  has_quick_play (alter_at (appendTo quickPlayButton) b d) = true.
Proof.
  intros [e He]. unfold has_quick_play.
  pose proof (get_appended quickPlayButton b d e He) as Hnew.
  destruct (find_exists (test_at (alter_at (appendTo quickPlayButton) b d) (hasId QUICK_PLAY))
              (paths (alter_at (appendTo quickPlayButton) b d))
              (b ++ [length (children e)])%list) as [y Hy].
  - now apply (get_In_paths _ _ quickPlayButton).
  - unfold test_at. now rewrite Hnew.
  - now rewrite Hy.
Qed.

(** X10: [addQuickPlayButton] adds the button at most once.  If an element
    with the button's id is in the document the page is left alone; else,
    if the document has a body, the button becomes the body's last child and
    every node that was there keeps its place, attributes and classes; else
    a type error is thrown and the page is left alone.  After a call that
    returned, the button is present and a further call changes nothing. *)
Theorem addQuickPlayButton_once (pg : Page) :
  (has_quick_play (document pg) = true -> addQuickPlayButton pg = (Returned tt, pg)) /\
  (has_quick_play (document pg) = false -> body_of (document pg) = None ->
     addQuickPlayButton pg = (Thrown TypeError, pg)) /\
  (forall b body,
     has_quick_play (document pg) = false -> body_of (document pg) = Some b ->
     get b (document pg) = Some body ->
     fst (addQuickPlayButton pg) = Returned tt /\
     get (b ++ [length (children body)])%list (document (snd (addQuickPlayButton pg)))
       = Some quickPlayButton /\
     forall q e, get q (document pg) = Some e ->
       exists e', get q (document (snd (addQuickPlayButton pg))) = Some e' /\
                  attrs e' = attrs e /\ classList e' = classList e) /\
  (forall pg', addQuickPlayButton pg = (Returned tt, pg') ->
     has_quick_play (document pg') = true /\
     addQuickPlayButton pg' = (Returned tt, pg')).
Proof.
  rewrite addQuickPlayButton_cases. split; [|split; [|split]].
  - now intros ->.
  - now intros -> ->.
  - intros b body -> -> Hbody. simpl. split; [reflexivity|].
    split; [now apply get_appended|]. intros q e. apply get_after_append.
  - intros pg'. destruct (has_quick_play (document pg)) eqn:Hhas.
    + intros Hpg. injection Hpg as <-. split; [exact Hhas|].
      now rewrite addQuickPlayButton_cases, Hhas.
    + destruct (body_of (document pg)) as [b|] eqn:Hb; [|discriminate].
      intros Hpg. injection Hpg as <-. simpl.
      pose proof (has_quick_play_after_append b (document pg) (body_of_valid _ b Hb)) as Hnow.
      split; [exact Hnow|]. rewrite addQuickPlayButton_cases. simpl. now rewrite Hnow.
Qed.

Lemma addQuickPlayButton_once_witness :
  has_quick_play (document (snd (addQuickPlayButton Sample.diggPage))) = true /\
  addQuickPlayButton (snd (addQuickPlayButton Sample.diggPage))
  = (Returned tt, snd (addQuickPlayButton Sample.diggPage)).
Proof.
  destruct (addQuickPlayButton_once Sample.diggPage) as [_ [_ [_ Honce]]].
  apply Honce. reflexivity.
Defined.

(** ** The container of a link *)

Lemma find_app {A} (f : A -> bool) (l1 l2 : list A) :
  List.find f (l1 ++ l2)%list =
  match List.find f l1 with Some x => Some x | None => List.find f l2 end.
Proof.
  induction l1 as [|x l1 IH]; simpl; [reflexivity|]. destruct (f x); [reflexivity | exact IH].
Qed.

Lemma find_map {A B} (f : B -> bool) (g : A -> B) (l : list A) :
  List.find f (List.map g l) = option_map g (List.find (fun x => f (g x)) l).
Proof.
  induction l as [|x l IH]; simpl; [reflexivity|]. destruct (f (g x)); [reflexivity | exact IH].
Qed.

Lemma ancestors_or_self_cons (i : nat) (p : path) :
  ancestors_or_self (i :: p) = (List.map (cons i) (ancestors_or_self p) ++ [[]])%list.
Proof. unfold ancestors_or_self. simpl. now rewrite map_rev. Qed.

Lemma ancestors_or_self_In (p q : path) : In q (ancestors_or_self p) <-> q `prefix_of` p.
Proof. unfold ancestors_or_self. rewrite <- in_rev. apply prefixes_In. Qed.

(** Searching from the node upwards finds the nearest match. *)
Lemma find_nearest (f : path -> bool) (p c : path) :
  List.find f (ancestors_or_self p) = Some c ->
  c `prefix_of` p /\ f c = true /\
  forall q, strictly_between c q p -> f q = false.
Proof.
  revert f c. induction p as [|i p IH]; intros f c Hfind.
  - simpl in Hfind. destruct (f []) eqn:Hroot; [|discriminate]. injection Hfind as <-.
    split; [reflexivity|]. split; [exact Hroot|].
    intros q [Hq [_ Hne]]. apply prefix_nil_inv in Hq. congruence.
  - rewrite ancestors_or_self_cons, find_app, find_map in Hfind.
    destruct (List.find (fun x => f (i :: x)) (ancestors_or_self p)) as [c'|] eqn:Hup.
    + simpl in Hfind. injection Hfind as <-.
      destruct (IH _ c' Hup) as [Hpre [Hfc Hnear]].
      split; [now apply prefix_cons|]. split; [exact Hfc|].
      intros q [Hq [Hcq Hne]]. destruct q as [|j q].
      * apply prefix_nil_inv in Hcq. discriminate.
      * pose proof (prefix_cons_inv_1 _ _ _ _ Hq) as ->.
        apply (Hnear q). split; [now apply prefix_cons_inv_2 in Hq|].
        split; [now apply prefix_cons_inv_2 in Hcq | congruence].
    + simpl in Hfind. destruct (f []) eqn:Hroot; [|discriminate]. injection Hfind as <-.
      split; [apply prefix_nil|]. split; [exact Hroot|].
      intros q [Hq [_ Hne]]. destruct q as [|j q]; [congruence|].
      pose proof (prefix_cons_inv_1 _ _ _ _ Hq) as ->.
      apply prefix_cons_inv_2 in Hq. apply ancestors_or_self_In in Hq.
      exact (find_none _ _ Hup q Hq).
Qed.

Lemma closest_path_none_iff (d : Element) (link : path) (tag : string) :
  closest_path d link tag = None <->
  forall q, q `prefix_of` link -> test_at d (hasTag tag) q = false.
Proof.
  unfold closest_path. split.
  - intros Hnone q Hq. apply (find_none _ _ Hnone). now apply ancestors_or_self_In.
  - intros Hall. apply find_all_false. intros q Hq. apply Hall.
    now apply ancestors_or_self_In.
Qed.

(** X11: the container of a link is the nearest article on the way up from
    the link, the link itself included, whatever lies in between; only when
    no article is on that way is it the nearest div; and there is none
    exactly when neither an article nor a div is on that way.  So a div
    nearer than an article is passed over. *)
Theorem container_is_nearest_article_else_div (d : Element) (link : path) :
  (forall c, container_of d link = Some c ->
     c `prefix_of` link /\
     ((test_at d (hasTag "article") c = true /\
       forall q, strictly_between c q link -> test_at d (hasTag "article") q = false) \/
      (test_at d (hasTag "div") c = true /\
       (forall q, q `prefix_of` link -> test_at d (hasTag "article") q = false) /\
       forall q, strictly_between c q link -> test_at d (hasTag "div") q = false))) /\
  (container_of d link = None <->
   forall q, q `prefix_of` link ->
     test_at d (hasTag "article") q = false /\ test_at d (hasTag "div") q = false) /\
  container_of MoreSample.nestedDocument [0; 0; 0; 0]%nat = Some [0; 0]%nat.
Proof.
  unfold container_of. split; [|split; [|reflexivity]].
  - intros c. destruct (closest_path d link "article") as [a|] eqn:Ha.
    + intros Hc. injection Hc as <-. apply find_nearest in Ha.
      destruct Ha as [Hpre [Hart Hnear]]. split; [exact Hpre|]. left. now split.
    + intros Hdiv. apply find_nearest in Hdiv. destruct Hdiv as [Hpre [Hd Hnear]].
      split; [exact Hpre|]. right. split; [exact Hd|]. split; [|exact Hnear].
      now apply closest_path_none_iff.
  - destruct (closest_path d link "article") as [a|] eqn:Ha.
    + split; [discriminate|]. intros Hall. exfalso.
      apply find_nearest in Ha. destruct Ha as [Hpre [Hart _]].
      destruct (Hall a Hpre) as [Hno _]. congruence.
    + rewrite closest_path_none_iff. rewrite closest_path_none_iff in Ha. split.
      * intros Hdiv q Hq. split; [now apply Ha | now apply Hdiv].
      * intros Hall q Hq. now apply Hall.
Qed.

(** ** What the pass marks and what it leaves alone *)

(** X12: after the pass a node carries the marker exactly when it carried
    it before or is the container of some anchor that matches the selector
    and whose address is official. *)
Theorem highlight_marks_exactly (pg : Page) (q : path) :
  is_marked (document (snd (highlightOfficialPosts pg))) q = true <->
  is_marked (document pg) q = true \/
  exists link,
    In link (communityLinks (document pg)) /\
    isOfficial (href_or_empty (document pg) link) = true /\
    container_of (document pg) link = Some q.
Proof.
  rewrite highlightOfficialPosts_run. simpl. unfold highlight_all. split.
  - intros Hafter. apply fold_marks_only in Hafter.
    destruct Hafter as [Hb | [link [Hin Ht]]]; [now left|]. right. exists link.
    split; [exact Hin|]. unfold target in Ht.
    destruct (isOfficial (href_or_empty (document pg) link)); [now split | discriminate].
  - intros [Hb | [link [Hin [Ho Hc]]]].
    + now apply is_marked_fold_mono.
    + apply (fold_marks _ _ link q Hin). unfold target. now rewrite Ho.
Qed.

Lemma classList_alter_at_ne (f : Element -> Element) (c q : path) (d : Element) :
  (forall e, children (f e) = children e) -> q <> c ->
  classList <$> get q (alter_at f c d) = classList <$> get q d.
Proof.
  intros Hch. revert d q. induction c as [|i c IH]; intros d q Hne.
  - destruct q as [|j q]; [congruence|]. simpl. now rewrite Hch.
  - destruct d as [t i' h cl ch]. destruct q as [|j q]; [reflexivity|]. simpl.
    destruct (decide (i = j)) as [->|Hij].
    + rewrite list_lookup_alter_eq. destruct (ch !! j) as [x|]; simpl; [|reflexivity].
      apply IH. congruence.
    + now rewrite list_lookup_alter_ne.
Qed.

Lemma marker_added_at_most_refl (e : Element) : marker_added_at_most e e.
Proof. split; [reflexivity | now left]. Qed.

Lemma marker_added_at_most_trans (e1 e2 e3 : Element) :
  marker_added_at_most e1 e2 -> marker_added_at_most e2 e3 -> marker_added_at_most e1 e3.
Proof.
  intros [Ha [Hc | [Hno Hc]]] [Ha' [Hc' | [Hno' Hc']]]; split; try congruence.
  - left. congruence.
  - right. split; [|congruence]. unfold hasClass in *. now rewrite <- Hc.
  - right. split; [exact Hno | congruence].
  - exfalso. unfold hasClass in Hno'. rewrite Hc, existsb_app in Hno'.
    apply orb_false_elim in Hno'. destruct Hno' as [_ Hlast].
    vm_compute in Hlast. discriminate.
Qed.

Lemma marker_added_at_most_addClass (e : Element) :
  marker_added_at_most e (addClass OFFICIAL e).
Proof.
  split; [apply addClass_attrs|]. destruct e as [t i h cl ch].
  unfold hasClass. cbn [classList addClass].
  destruct (existsb (String.eqb OFFICIAL) cl) eqn:Hex; [left | right; split]; reflexivity.
Qed.

Lemma highlight_one_keeps (d : Element) (link q : path) (e : Element) :
  get q d = Some e ->
  exists e', get q (highlight_one d link) = Some e' /\ marker_added_at_most e e'.
Proof.
  intros Hq. unfold highlight_one. destruct (target d link) as [c|];
    [|exists e; split; [exact Hq | apply marker_added_at_most_refl]].
  destruct (is_marked d c); [exists e; split; [exact Hq | apply marker_added_at_most_refl]|].
  unfold mark. destruct (decide (q = c)) as [->|Hne].
  - exists (addClass OFFICIAL e). rewrite get_alter_at_self, Hq.
    split; [reflexivity | apply marker_added_at_most_addClass].
  - pose proof (classList_alter_at_ne (addClass OFFICIAL) c q d (addClass_children OFFICIAL) Hne)
      as Hcl.
    pose proof (attrs_alter_at (addClass OFFICIAL) (addClass_children OFFICIAL)
                  (addClass_attrs OFFICIAL) c q d) as Hat.
    rewrite Hq in Hcl, Hat.
    destruct (get q (alter_at (addClass OFFICIAL) c d)) as [e'|]; [|discriminate].
    simpl in Hcl, Hat. exists e'. split; [reflexivity|].
    split; [congruence | left; congruence].
Qed.

Lemma fold_keeps (links : list path) (d : Element) (q : path) (e : Element) :
  get q d = Some e ->
  exists e', get q (fold_left highlight_one links d) = Some e' /\ marker_added_at_most e e'.
Proof.
  revert d e. induction links as [|l links IH]; intros d e Hq.
  - exists e. split; [exact Hq | apply marker_added_at_most_refl].
  - simpl. destruct (highlight_one_keeps d l q e Hq) as [e1 [H1 R1]].
    destruct (IH _ e1 H1) as [e2 [H2 R2]]. exists e2. split; [exact H2|].
    now apply (marker_added_at_most_trans e e1 e2).
Qed.

(** X13: the pass touches nothing but the marker.  The document keeps its
    nodes in their places; every node keeps its tag name, id and address;
    its class list is what it was, or what it was followed by the marker
    when it did not carry the marker; and the rest of the page (host,
    listeners, observers) is as before. *)
Theorem highlight_only_adds_marker (pg : Page) :
  fst (highlightOfficialPosts pg) = Returned tt /\
  paths (document (snd (highlightOfficialPosts pg))) = paths (document pg) /\
  (forall q e, get q (document pg) = Some e ->
     exists e', get q (document (snd (highlightOfficialPosts pg))) = Some e' /\
                localName e' = localName e /\ id e' = id e /\ href e' = href e /\
                (classList e' = classList e \/
                 (hasClass OFFICIAL e = false /\
                  classList e' = (classList e ++ [OFFICIAL])%list))) /\
  hostname (snd (highlightOfficialPosts pg)) = hostname pg /\
  readyListeners (snd (highlightOfficialPosts pg)) = readyListeners pg /\
  observers (snd (highlightOfficialPosts pg)) = observers pg.
Proof.
  rewrite highlightOfficialPosts_run. simpl. unfold highlight_all.
  split; [reflexivity|]. split; [|split; [|repeat split]].
  - symmetry. apply (similar_fold (communityLinks (document pg)) (document pg)).
  - intros q e Hq.
    destruct (fold_keeps (communityLinks (document pg)) (document pg) q e Hq)
      as [e' [He' [Ha Hc]]].
    exists e'. split; [exact He'|]. unfold attrs in Ha. injection Ha as Ht Hi Hh.
    repeat split; assumption.
Qed.

(** ** The script on a digg.com page *)

Lemma localName_alter_at (f : Element -> Element) (p : path) (x : Element) :
  (forall e, localName (f e) = localName e) -> localName (alter_at f p x) = localName x.
Proof. intros Hf. destruct p as [|i p]; [apply Hf | now destruct x]. Qed.

Lemma index_where_alter (h : Element -> bool) (g : Element -> Element) (i : nat)
    (l : list Element) :
  (forall x, h (g x) = h x) -> index_where h (alter g i l) = index_where h l.
Proof.
  intros Hg. revert i. induction l as [|x l IH]; intros i; [reflexivity|].
  destruct i as [|i].
  - change (alter g 0%nat (x :: l)) with (g x :: l). simpl. now rewrite Hg.
  - change (alter g (S i) (x :: l)) with (x :: alter g i l). simpl. now rewrite IH.
Qed.

Lemma body_of_alter_at (f : Element -> Element) (p : path) (d : Element) :
  (forall e, localName (f e) = localName e) ->
  (p <> [] \/ forall e, children (f e) = children e) ->
  body_of (alter_at f p d) = body_of d.
Proof.
  intros Hname Hch. unfold body_of. rewrite (localName_alter_at f p d Hname).
  destruct p as [|i p].
  - destruct Hch as [Hne | Hch]; [congruence|]. simpl. now rewrite Hch.
  - destruct d as [t i' h cl ch]. simpl. rewrite index_where_alter; [reflexivity|].
    intros x. unfold hasTag. now rewrite (localName_alter_at f p x Hname).
Qed.

Lemma addClass_localName (cls : string) (e : Element) :
  localName (addClass cls e) = localName e.
Proof. now destruct e. Qed.

Lemma appendTo_localName (child e : Element) : localName (appendTo child e) = localName e.
Proof. now destruct e. Qed.

Lemma body_of_fold (links : list path) (d : Element) :
  body_of (fold_left highlight_one links d) = body_of d.
Proof.
  revert d. induction links as [|l links IH]; intros d; [reflexivity|]. simpl. rewrite IH.
  unfold highlight_one. destruct (target d l) as [c|]; [|reflexivity].
  destruct (is_marked d c); [reflexivity|].
  apply body_of_alter_at; [apply addClass_localName | right; apply addClass_children].
Qed.

Lemma hasId_attrs (name : string) (e e' : Element) :
  attrs e = attrs e' -> hasId name e = hasId name e'.
Proof. unfold attrs, hasId. intros Ha. injection Ha as _ -> _. reflexivity. Qed.

Lemma has_quick_play_similar (d d' : Element) :
  similar d d' -> has_quick_play d = has_quick_play d'.
Proof.
  intros Hs. unfold has_quick_play. rewrite (proj1 Hs).
  rewrite (find_ext_all (test_at d (hasId QUICK_PLAY)) (test_at d' (hasId QUICK_PLAY)));
    [reflexivity|].
  intros q. apply test_at_similar; [apply hasId_attrs | exact Hs].
Qed.

Lemma kept_refl (d : Element) : kept d d.
Proof. intros q e Hq. exists e. now repeat split. Qed.

Lemma kept_with_button (d : Element) : kept d (with_button d).
Proof.
  unfold with_button. destruct (has_quick_play d); [apply kept_refl|].
  destruct (body_of d) as [b|]; [|apply kept_refl].
  intros q e. apply get_after_append.
Qed.

Lemma find_ext_in {A} (f g : A -> bool) (l : list A) :
  (forall x, In x l -> f x = g x) -> List.find f l = List.find g l.
Proof.
  induction l as [|x l IH]; intros Hfg; simpl; [reflexivity|].
  rewrite (Hfg x) by now left. destruct (g x); [reflexivity|].
  apply IH. intros y Hy. apply Hfg. now right.
Qed.

Lemma test_at_kept (obs : Element -> bool) (d d' : Element) (q : path) :
  (forall e e', attrs e = attrs e' -> obs e = obs e') ->
  kept d d' -> is_Some (get q d) -> test_at d' obs q = test_at d obs q.
Proof.
  intros Hobs Hk [e He]. destruct (Hk q e He) as [e' [He' [Ha _]]].
  unfold test_at. rewrite He, He'. now apply Hobs.
Qed.

Lemma is_marked_kept (d d' : Element) (q : path) :
  kept d d' -> is_marked d q = true -> is_marked d' q = true.
Proof.
  intros Hk. unfold is_marked, test_at. destruct (get q d) as [e|] eqn:He; [|discriminate].
  destruct (Hk q e He) as [e' [-> [_ Hc]]]. unfold hasClass. now rewrite Hc.
Qed.

Lemma communityLinks_kept (d d' : Element) (link : path) :
  kept d d' -> In link (communityLinks d) ->
  In link (communityLinks d') /\ target d' link = target d link.
Proof.
  intros Hk Hin. pose proof (communityLinks_valid d link Hin) as Hvalid.
  unfold communityLinks in Hin. apply filter_In in Hin. destruct Hin as [_ Htest].
  split.
  - unfold communityLinks. apply filter_In. split.
    + destruct Hvalid as [e He]. destruct (Hk link e He) as [e' [He' _]].
      now apply (get_In_paths link d' e').
    + rewrite (test_at_kept isCommunityLink d d' link); auto using isCommunityLink_attrs.
  - unfold target, container_of, closest_path, href_or_empty.
    destruct Hvalid as [e He]. destruct (Hk link e He) as [e' [He' [Ha _]]].
    rewrite He, He'. unfold attrs in Ha. injection Ha as _ _ Hh. rewrite Hh.
    assert (Hfind : forall tag,
              List.find (test_at d' (hasTag tag)) (ancestors_or_self link)
              = List.find (test_at d (hasTag tag)) (ancestors_or_self link)).
    { intros tag. apply find_ext_in. intros q Hq. apply test_at_kept.
      - apply hasTag_attrs.
      - exact Hk.
      - apply (prefix_valid d link q); [rewrite He; eauto | now apply ancestors_or_self_In]. }
    now rewrite !Hfind.
Qed.

Lemma button_then_highlight_run (pg : Page) :
  has_quick_play (document pg) = true \/ body_of (document pg) <> None ->
  (do_await addQuickPlayButton in highlightOfficialPosts) pg
  = (Returned tt, with_document pg (highlight_all (with_button (document pg)))).
Proof.
  intros Hcan. unfold bind. rewrite addQuickPlayButton_cases. unfold with_button.
  destruct (has_quick_play (document pg)).
  - now rewrite highlightOfficialPosts_run.
  - destruct Hcan as [Hhas | Hbody]; [discriminate|].
    destruct (body_of (document pg)) as [b|]; [|congruence].
    now rewrite highlightOfficialPosts_run.
Qed.

Lemma body_of_with_button (d : Element) : body_of (with_button d) = body_of d.
Proof.
  unfold with_button. destruct (has_quick_play d); [reflexivity|].
  destruct (body_of d) as [b|] eqn:Hb; [|exact Hb].
  rewrite body_of_alter_at; [exact Hb | apply appendTo_localName |].
  left. unfold body_of in Hb. destruct (String.eqb (localName d) "html"); [|discriminate].
  destruct (index_where _ (children d)); [|discriminate]. simpl in Hb. congruence.
Qed.

Lemma has_quick_play_with_button (d : Element) :
  body_of d <> None -> has_quick_play (with_button d) = true.
Proof.
  intros Hbody. unfold with_button. destruct (has_quick_play d) eqn:Hhas; [exact Hhas|].
  destruct (body_of d) as [b|] eqn:Hb; [|congruence].
  apply has_quick_play_after_append. now apply body_of_valid.
Qed.

Lemma observe_run (pg : Page) (b : path) :
  is_Some (get b (document pg)) ->
  observe (Some b) pg =
  (Returned tt,
   {| hostname := hostname pg; loading := loading pg; document := document pg;
      readyListeners := readyListeners pg; observers := (observers pg ++ [b])%list |}).
Proof. intros [e He]. unfold observe, on_element. now rewrite He. Qed.

(** X14: on a page whose host name contains "digg.com", whose document is
    no longer loading and has a body, the script returns normally.  It
    installs exactly one observer, on the body, and adds no listener; the
    quick-play button is in the document; every node that was there keeps
    its place, and every marker that was there stays; the container of every
    official anchor of the page is marked; and the page is settled: the
    observer's callback, run on the result, changes nothing, so the script's
    own changes cannot keep it running. *)
Theorem contentScript_on_loaded_page (pg : Page) (b : path) :
  includes "digg.com" (hostname pg) = true ->
  loading pg = false ->
  body_of (document pg) = Some b ->
  exists pg',
    contentScript pg = (Returned tt, pg') /\
    observers pg' = (observers pg ++ [b])%list /\
    readyListeners pg' = readyListeners pg /\
    has_quick_play (document pg') = true /\
    (forall q, is_Some (get q (document pg)) -> is_Some (get q (document pg'))) /\
    (forall q, is_marked (document pg) q = true -> is_marked (document pg') q = true) /\
    (forall link c,
       In link (communityLinks (document pg)) ->
       isOfficial (href_or_empty (document pg) link) = true ->
       container_of (document pg) link = Some c ->
       is_marked (document pg') c = true) /\
    onMutation pg' = (Returned tt, pg').
Proof.
  intros Hhost Hload Hbody.
  set (d1 := with_button (document pg)). set (d2 := highlight_all d1).
  assert (Hk : kept (document pg) d1) by apply kept_with_button.
  assert (Hs : similar d1 d2) by apply similar_fold.
  assert (Hb2 : body_of d2 = Some b).
  { unfold d2, highlight_all. rewrite body_of_fold. unfold d1.
    now rewrite body_of_with_button. }
  exists {| hostname := hostname pg; loading := loading pg; document := d2;
            readyListeners := readyListeners pg; observers := (observers pg ++ [b])%list |}.
  split; [|split; [reflexivity|split; [reflexivity|split; [|split; [|split; [|split]]]]]].
  - unfold contentScript. rewrite Hhost, Hload. unfold bind at 1.
    rewrite button_then_highlight_run by (right; congruence).
    fold d1. fold d2. unfold bind. rewrite document_body_run. simpl document. rewrite Hb2.
    rewrite observe_run; [simpl; now rewrite Hload|]. simpl. now apply body_of_valid.
  - simpl. rewrite <- (has_quick_play_similar d1 d2 Hs).
    apply has_quick_play_with_button. congruence.
  - simpl. intros q [e He]. destruct (Hk q e He) as [e1 [He1 _]].
    apply (valid_similar d1 d2 q Hs). rewrite He1. eauto.
  - simpl. intros q Hq. unfold d2, highlight_all. apply is_marked_fold_mono.
    now apply (is_marked_kept (document pg) d1).
  - simpl. intros link c Hin Ho Hc.
    destruct (communityLinks_kept (document pg) d1 link Hk Hin) as [Hin1 Ht1].
    unfold d2, highlight_all. apply (fold_marks _ _ link c Hin1).
    rewrite Ht1. unfold target. now rewrite Ho.
  - unfold onMutation. rewrite highlightOfficialPosts_run. simpl. unfold d2.
    now rewrite highlight_all_idempotent.
Qed.

Lemma contentScript_on_loaded_page_witness :
  exists pg',
    contentScript Sample.diggPage = (Returned tt, pg') /\
    observers pg' = [[1%nat]] /\
    has_quick_play (document pg') = true /\
    onMutation pg' = (Returned tt, pg').
Proof.
  destruct (contentScript_on_loaded_page Sample.diggPage [1%nat] eq_refl eq_refl eq_refl)
    as [pg' [Hrun [Hobs [_ [Hbutton [_ [_ [_ Hsettled]]]]]]]].
  exists pg'. repeat split; assumption.
Defined.

(** X15: on a digg.com page whose document is still loading and has a
    body, the script touches no node: it adds one DOMContentLoaded listener
    and one observer on the body and returns.  When the listener's callback
    later runs, it does to the document what the script does at once on a
    loaded page: button added, official posts marked. *)
Theorem contentScript_defers_while_loading (pg : Page) (b : path) :
  includes "digg.com" (hostname pg) = true ->
  loading pg = true ->
  body_of (document pg) = Some b ->
  contentScript pg =
    (Returned tt,
     {| hostname := hostname pg; loading := true; document := document pg;
        readyListeners := S (readyListeners pg);
        observers := (observers pg ++ [b])%list |}) /\
  onDOMContentLoaded (snd (contentScript pg))
  = (Returned tt,
     with_document (snd (contentScript pg))
       (highlight_all (with_button (document pg)))).
Proof.
  intros Hhost Hload Hbody.
  assert (Hrun : contentScript pg =
    (Returned tt,
     {| hostname := hostname pg; loading := true; document := document pg;
        readyListeners := S (readyListeners pg);
        observers := (observers pg ++ [b])%list |})).
  { unfold contentScript. rewrite Hhost, Hload. unfold bind, addReadyListener.
    rewrite document_body_run. simpl document. rewrite Hbody.
    rewrite observe_run; [now rewrite Hload|]. simpl. now apply body_of_valid. }
  split; [exact Hrun|]. rewrite Hrun. simpl snd.
  unfold onDOMContentLoaded. rewrite button_then_highlight_run; [reflexivity|].
  right. simpl. congruence.
Qed.

Lemma contentScript_defers_while_loading_witness :
  document (snd (contentScript MoreSample.loadingPage)) = Sample.feedDocument /\
  readyListeners (snd (contentScript MoreSample.loadingPage)) = 1%nat.
Proof.
  destruct (contentScript_defers_while_loading MoreSample.loadingPage [1%nat]
              eq_refl eq_refl eq_refl) as [Hrun _].
  rewrite Hrun. split; reflexivity.
Defined.

(** X16: on a digg.com page whose document has no body the script throws a
    type error and installs no observer, whether the document is loading or
    not. *)
Theorem contentScript_without_body_throws (pg : Page) :
  includes "digg.com" (hostname pg) = true ->
  body_of (document pg) = None ->
  exists pg',
    contentScript pg = (Thrown TypeError, pg') /\
    observers pg' = observers pg.
Proof.
  intros Hhost Hbody. unfold contentScript. rewrite Hhost.
  destruct (loading pg) eqn:Hload.
  - unfold bind, addReadyListener. rewrite document_body_run. simpl document.
    rewrite Hbody. eexists. split; reflexivity.
  - unfold bind at 1 2. rewrite addQuickPlayButton_cases, Hbody.
    destruct (has_quick_play (document pg)); [|eexists; split; reflexivity].
    rewrite highlightOfficialPosts_run. unfold bind. rewrite document_body_run.
    simpl document. unfold highlight_all. rewrite body_of_fold, Hbody.
    eexists. split; reflexivity.
Qed.

Lemma contentScript_without_body_throws_witness :
  exists pg',
    contentScript MoreSample.bodilessPage = (Thrown TypeError, pg') /\
    observers pg' = [].
Proof.
  apply (contentScript_without_body_throws MoreSample.bodilessPage); reflexivity.
Defined.

(** ** The background worker *)

Lemma handle_alarms (w : Background.Worker) (ev : Background.Event) :
  Background.alarms w = [] \/
  Background.alarms w = [("checkForNewEpisode", Background.CHECK_INTERVAL_MINUTES)] ->
  Background.alarms (Background.handle w ev) =
  if Background.isInstalled ev
  then [("checkForNewEpisode", Background.CHECK_INTERVAL_MINUTES)]
  else Background.alarms w.
Proof.
  intros Hw. destruct ev as [reason|name|type]; simpl.
  - destruct Hw as [-> | ->]; reflexivity.
  - unfold Background.onAlarm. destruct (String.eqb name "checkForNewEpisode"); reflexivity.
  - destruct (String.eqb type "GET_LATEST_EPISODE"); reflexivity.
Qed.

Lemma handle_responses (w : Background.Worker) (ev : Background.Event) :
  Background.responses (Background.handle w ev) =
  (Background.responses w ++
   if Background.isEpisodeRequest ev then ["use_popup"] else [])%list.
Proof.
  destruct ev as [reason|name|type]; simpl.
  - now rewrite app_nil_r.
  - unfold Background.onAlarm. rewrite app_nil_r.
    destruct (String.eqb name "checkForNewEpisode"); reflexivity.
  - destruct (String.eqb type "GET_LATEST_EPISODE"); simpl; [reflexivity|].
    now rewrite app_nil_r.
Qed.

Lemma fold_handle (events : list Background.Event) (w : Background.Worker) :
  Background.alarms w = [] \/
  Background.alarms w = [("checkForNewEpisode", Background.CHECK_INTERVAL_MINUTES)] ->
  Background.alarms (fold_left Background.handle events w) =
    (if existsb Background.isInstalled events
     then [("checkForNewEpisode", Background.CHECK_INTERVAL_MINUTES)]
     else Background.alarms w) /\
  Background.responses (fold_left Background.handle events w) =
    (Background.responses w ++
     repeat "use_popup" (length (List.filter Background.isEpisodeRequest events)))%list.
Proof.
  revert w. induction events as [|ev events IH]; intros w Hw; simpl.
  - now rewrite app_nil_r.
  - pose proof (handle_alarms w ev Hw) as Ha. pose proof (handle_responses w ev) as Hr.
    destruct (IH (Background.handle w ev)) as [IHa IHr].
    { rewrite Ha. destruct (Background.isInstalled ev); [now right | exact Hw]. }
    rewrite IHa, IHr, Ha, Hr. split.
    + destruct (Background.isInstalled ev); simpl; [|reflexivity].
      now destruct (existsb Background.isInstalled events).
    + rewrite <- app_assoc. destruct (Background.isEpisodeRequest ev); reflexivity.
Qed.

(** X17: whatever events reach the background worker, in whatever order,
    it never holds more than one alarm: none before the first install event
    and, from then on, exactly the alarm "checkForNewEpisode" with a period
    of 60 minutes, however often the install event recurs and whatever
    alarms fire; it has answered "use_popup" once for each message of type
    GET_LATEST_EPISODE and nothing to any other message; and the message
    handler always hands back true. *)
Theorem worker_keeps_one_alarm (events : list Background.Event) :
  Background.alarms (Background.run events) =
    (if existsb Background.isInstalled events
     then [("checkForNewEpisode", 60)] else []) /\
  Background.responses (Background.run events) =
    repeat "use_popup" (length (List.filter Background.isEpisodeRequest events)) /\
  (forall type w, snd (Background.onMessage type w) = true).
Proof.
  destruct (fold_handle events Background.fresh_worker) as [Ha Hr]; [now left|].
  split; [exact Ha|]. split; [exact Hr | reflexivity].
Qed.
